(** * The Palette engine of fx-pickers, embedded in Rocq

    A shallow embedding of [class Palette] (the command palette of the
    [pickers] userscripts): the command list, the filter and ranking
    pipeline, the fuzzy matcher, highlighting, the selection cursor, the
    mutation API and command invocation, with the properties the
    specification states about them.

    JavaScript strings are sequences of UTF-16 code units, modelled as
    [list Z]; JavaScript integers are modelled as [Z] (all the numbers the
    engine computes are array lengths and indices, far below 2^53). *)

From Stdlib Require Import ZArith List Bool Lia String Ascii Sorted Permutation.
From stdpp Require Import base decidable option list gmap pretty.

Local Open Scope Z_scope.

(** ** JavaScript strings *)

Abbreviation jsstring := (list Z).

(** Code units of an ASCII literal, to write examples. *)
Definition js (s : string) : jsstring :=
  map (fun a => Z.of_nat (nat_of_ascii a)) (list_ascii_of_string s).

(** [a === b] on strings. *)
Definition str_eqb (a b : jsstring) : bool := bool_decide (a = b).

(** [s.startsWith(p)] *)
Fixpoint startsWith (s p : jsstring) {struct p} : bool :=
  match p with
  | [] => true
  | c :: p' =>
      match s with
      | [] => false
      | d :: s' => (c =? d) && startsWith s' p'
      end
  end.

(** [s.indexOf(p)]: the first position at which [p] occurs, or -1. *)
Fixpoint indexOf_from (s p : jsstring) (pos : Z) : Z :=
  if startsWith s p then pos
  else match s with
       | [] => -1
       | _ :: s' => indexOf_from s' p (pos + 1)
       end.

Definition indexOf (s p : jsstring) : Z := indexOf_from s p 0.

(** [s.includes(p)] *)
Definition includes (s p : jsstring) : bool := negb (indexOf s p =? -1).

(** [s.slice(i, j)] and [s.slice(i)] for indices [0 <= i <= j]. *)
Definition slice (s : jsstring) (i j : nat) : jsstring := take (j - i) (drop i s).
Definition slice_from (s : jsstring) (i : nat) : jsstring := drop i s.

(** White space and line terminators, the code units [trim] strips. *)
Definition is_whitespace (c : Z) : bool :=
  ((9 <=? c) && (c <=? 13)) || (c =? 32) || (c =? 160) || (c =? 5760)
  || ((8192 <=? c) && (c <=? 8202)) || (c =? 8232) || (c =? 8233)
  || (c =? 8239) || (c =? 8287) || (c =? 12288) || (c =? 65279).

Fixpoint trimStart (s : jsstring) : jsstring :=
  match s with
  | [] => []
  | c :: s' => if is_whitespace c then trimStart s' else s
  end.

Definition trimEnd (s : jsstring) : jsstring := rev (trimStart (rev s)).

(** [s.trim()] *)
Definition trim (s : jsstring) : jsstring := trimEnd (trimStart s).

(** What the engine takes from the host's string library:
    [String.prototype.toLowerCase] and [String.prototype.localeCompare]. *)
Class Host := {
  toLowerCase : jsstring -> jsstring;
  localeCompare : jsstring -> jsstring -> Z
}.

(** ** Fuzzy subsequence match *)

(** The loop of [_fuzzyMatch]: two cursors, the text cursor advances at
    every step, the query cursor on a match.  Every iteration advances
    [ti], so [length text - ti] iterations are enough; the result is the
    pair of cursors at loop exit. *)
Fixpoint fuzzy_loop (fuel : nat) (query text : jsstring) (qi ti : nat) : nat * nat :=
  match fuel with
  | O => (qi, ti)
  | S fuel' =>
      if bool_decide (qi < length query ∧ ti < length text)%nat then
        let qi' := if bool_decide (query !! qi = text !! ti) then S qi else qi in
        fuzzy_loop fuel' query text qi' (S ti)
      else (qi, ti)
  end.

Definition _fuzzyMatch (query text : jsstring) : bool :=
  if bool_decide (length query = 0%nat) then true
  else
    let '(qi, _) := fuzzy_loop (length text) query text 0 0 in
    bool_decide (qi = length query).


(** ** Array helpers *)

(** [Array.prototype.sort(cmp)]: a stable sort by the comparator, written
    as an insertion sort.  An element is placed before the first element
    it does not compare greater than, and elements are inserted from the
    right, so elements that compare equal keep their input order. *)
Fixpoint sort_insert {A} (cmp : A -> A -> Z) (x : A) (l : list A) : list A :=
  match l with
  | [] => [x]
  | y :: l' => if cmp x y <=? 0 then x :: l else y :: sort_insert cmp x l'
  end.

Definition sort {A} (cmp : A -> A -> Z) (l : list A) : list A :=
  foldr (sort_insert cmp) [] l.

(** [Array.prototype.findIndex(p)]: the first index whose element
    satisfies [p], or -1. *)
Definition findIndex {A} (p : A -> bool) (l : list A) : Z :=
  match list_find (fun x => p x = true) l with
  | Some (i, _) => Z.of_nat i
  | None => -1
  end.

(** ** Data model *)

(** [Palette.PopulateBehavior] *)
Inductive PopulateBehavior := OnInit | OnFirstShow | OnShow.

Global Instance PopulateBehavior_eq_dec : EqDecision PopulateBehavior.
Proof. solve_decision. Defined.

(** How a promise handed back by an action or by the entry source
    settles. *)
Inductive Settlement := Fulfils | Rejects (err : jsstring).

(** What calling [entry.run(window, entry)] does: return nothing (or any
    value that is not a thenable), throw, or return a promise. *)
Inductive RunOutcome :=
  | RunReturns
  | RunThrows (err : jsstring)
  | RunDefers (settles : Settlement).

(** [Palette.Entry].  [id] is [None] for [false] or a missing id.  [run]
    is [None] when the field is not a function; the action sees, through
    the window it is handed, whether the palette's dialog is open.
    [count] is the extra field of [DomainPickerEntry], read by
    [DomainPickerSortFunc]; the engine passes it through untouched. *)
Record Entry := {
  id : option jsstring;
  title : jsstring;
  subtitle : option jsstring;
  displayTitle : option jsstring;
  displaySubtitle : option jsstring;
  run : option (bool -> RunOutcome);
  count : option Z
}.

(** Truthiness of [cmd.id]: a non-empty string. *)
Definition truthy_id (i : option jsstring) : bool :=
  match i with
  | Some (_ :: _) => true
  | _ => false
  end.

(** The values a caller can hand to [setCommands], or an entry source can
    produce. *)
Inductive JSValue :=
  | VUndefined
  | VNull
  | VBool (b : bool)
  | VNumber (n : Z)
  | VString (s : jsstring)
  | VObject
  | VArray (l : list Entry).

(** [Palette.Options], after the constructor has merged the defaults
    ([populateBehavior] is never left undefined there). *)
Record Options := {
  minQueryLength : Z;
  fuzzy : bool;
  highlight : bool;
  populateBehavior : list PopulateBehavior;
  hostAllowList : option (list jsstring);
  initialSortFunc : option (Entry -> Entry -> Z)
}.

(** The observable effects of the engine, in the order they happen. *)
Inductive Event :=
  | EvShowModal
  | EvDialogClose
  | EvRun (entry : Entry) (dialog_was_open : bool)
  | EvWarnNoRun (entry : Entry)
  | EvErrorExecutionFailed (err : jsstring)
  | EvErrorCommand (err : jsstring).

(** The state of a [Palette] instance.  [input_value] is [input.value],
    [dialog_open] is [dialog.open]; [trace] lists the effects so far,
    oldest first; [pending] holds the promises on which [_runCommand] has
    registered its [catch] handler and that have not settled yet. *)
Record Palette := {
  options : Options;
  commands : list Entry;
  filtered : list Entry;
  selectedIndex : Z;
  input_value : jsstring;
  dialog_open : bool;
  ranOnce : bool;
  trace : list Event;
  pending : list Settlement
}.

Definition set_commands (c : list Entry) (p : Palette) : Palette :=
  {| options := options p; commands := c; filtered := filtered p;
     selectedIndex := selectedIndex p; input_value := input_value p;
     dialog_open := dialog_open p; ranOnce := ranOnce p; trace := trace p;
     pending := pending p |}.

Definition set_filtered (f : list Entry) (p : Palette) : Palette :=
  {| options := options p; commands := commands p; filtered := f;
     selectedIndex := selectedIndex p; input_value := input_value p;
     dialog_open := dialog_open p; ranOnce := ranOnce p; trace := trace p;
     pending := pending p |}.

Definition set_selectedIndex (i : Z) (p : Palette) : Palette :=
  {| options := options p; commands := commands p; filtered := filtered p;
     selectedIndex := i; input_value := input_value p;
     dialog_open := dialog_open p; ranOnce := ranOnce p; trace := trace p;
     pending := pending p |}.

Definition set_input_value (v : jsstring) (p : Palette) : Palette :=
  {| options := options p; commands := commands p; filtered := filtered p;
     selectedIndex := selectedIndex p; input_value := v;
     dialog_open := dialog_open p; ranOnce := ranOnce p; trace := trace p;
     pending := pending p |}.

Definition set_dialog_open (b : bool) (p : Palette) : Palette :=
  {| options := options p; commands := commands p; filtered := filtered p;
     selectedIndex := selectedIndex p; input_value := input_value p;
     dialog_open := b; ranOnce := ranOnce p; trace := trace p;
     pending := pending p |}.

Definition set_ranOnce (b : bool) (p : Palette) : Palette :=
  {| options := options p; commands := commands p; filtered := filtered p;
     selectedIndex := selectedIndex p; input_value := input_value p;
     dialog_open := dialog_open p; ranOnce := b; trace := trace p;
     pending := pending p |}.

Definition emit (e : Event) (p : Palette) : Palette :=
  {| options := options p; commands := commands p; filtered := filtered p;
     selectedIndex := selectedIndex p; input_value := input_value p;
     dialog_open := dialog_open p; ranOnce := ranOnce p;
     trace := trace p ++ [e]; pending := pending p |}.

Definition set_pending (l : list Settlement) (p : Palette) : Palette :=
  {| options := options p; commands := commands p; filtered := filtered p;
     selectedIndex := selectedIndex p; input_value := input_value p;
     dialog_open := dialog_open p; ranOnce := ranOnce p; trace := trace p;
     pending := l |}.

(** The state the constructor leaves. *)
Definition new_Palette (opts : Options) : Palette :=
  {| options := opts; commands := []; filtered := []; selectedIndex := 0;
     input_value := []; dialog_open := false; ranOnce := false;
     trace := []; pending := [] |}.

(** ** The engine *)

Section Engine.
Context `{Host}.

(** *** Ranking and filtering *)

(** The score [_filterCommands] gives a command for the lower-cased
    query: all the bonuses that apply add up. *)
Definition score (opts : Options) (query : jsstring) (cmd : Entry) : Z :=
  let title := toLowerCase (title cmd) in
  let subtitle := toLowerCase (default [] (subtitle cmd)) in
  (if str_eqb title query then 100 else 0)
  + (if startsWith title query then 75 else 0)
  + (if includes title query then 50 else 0)
  + (if includes subtitle query then 30 else 0)
  + (if fuzzy opts && _fuzzyMatch query title then 10 else 0).

(** The comparator handed to [scored.sort]:
    [b.score - a.score || a.cmd.title.localeCompare(b.cmd.title)]. *)
Definition compare_scored (a b : Entry * Z) : Z :=
  let d := b.2 - a.2 in
  if d =? 0 then localeCompare (title a.1) (title b.1) else d.

Definition _filterCommands (q : jsstring) (p : Palette) : list Entry :=
  if str_eqb q [] then commands p
  else
    let query := toLowerCase q in
    let scored :=
      List.filter (fun x : Entry * Z => 0 <? x.2)
        (map (fun cmd => (cmd, score (options p) query cmd)) (commands p)) in
    map fst (sort compare_scored scored).

(** [_onQueryChange]: recompute [filtered] from [input.value] and bring
    [selectedIndex] back into range.  ([_renderResults] only rebuilds the
    rows of the dialog and changes none of the fields modelled here.) *)
Definition _onQueryChange (p : Palette) : Palette :=
  let q := trim (input_value p) in
  let results :=
    if minQueryLength (options p) <=? Z.of_nat (length q)
    then _filterCommands q p
    else commands p in
  let i := Z.min (selectedIndex p) (Z.max 0 (Z.of_nat (length results) - 1)) in
  let i := if i <? 0 then 0 else i in
  set_selectedIndex i (set_filtered results p).

(** The [input] event: the user has edited the query. *)
Definition _onInput (value : jsstring) (p : Palette) : Palette :=
  _onQueryChange (set_input_value value p).

(** *** Mutation API *)

Definition setCommands (list : JSValue) (p : Palette) : Palette :=
  let cmds := match list with VArray l => l | _ => [] end in
  match initialSortFunc (options p) with
  | Some f =>
      let sorted := sort f cmds in
      _onQueryChange (set_filtered sorted (set_commands sorted p))
  | None => _onQueryChange (set_commands cmds p)
  end.

Definition add (cmd : Entry) (p : Palette) : Palette :=
  let existingCmdIndex :=
    if truthy_id (id cmd)
    then findIndex (fun obj => bool_decide (id obj = id cmd)) (commands p)
    else -1 in
  let cmds :=
    if existingCmdIndex =? -1 then commands p ++ [cmd]
    else <[Z.to_nat existingCmdIndex := cmd]> (commands p) in
  setCommands (VArray cmds) p.

(** The argument of [remove]: a number, a string, or an entry (or
    [null]/[undefined], which [identifier?.id] lets through). *)
Inductive Identifier :=
  | ByIndex (idx : Z)
  | ById (s : jsstring)
  | ByEntry (e : option Entry).

Definition remove (identifier : Identifier) (p : Palette) : Palette :=
  match identifier with
  | ByIndex idx =>
      if (idx <? 0) || (Z.of_nat (length (commands p)) <=? idx) then p
      else setCommands (VArray (delete (Z.to_nat idx) (commands p))) p
  | _ =>
      let i := match identifier with
               | ById s => Some s
               | ByEntry (Some e) => id e
               | _ => None
               end in
      if negb (truthy_id i) then p
      else
        let index := findIndex (fun obj => bool_decide (id obj = i)) (commands p) in
        if index =? -1 then p
        else setCommands (VArray (delete (Z.to_nat index) (commands p))) p
  end.

(** *** Selection *)

Definition _setSelectedIndex (i : Z) (p : Palette) : Palette :=
  set_selectedIndex
    (Z.max 0 (Z.min i (Z.of_nat (length (filtered p)) - 1))) p.

(** [%] is the remainder that takes the sign of the dividend, [Z.rem].
    The two additions are written as those of [Z], which is what [+] on
    JavaScript numbers computes as long as the operands and the sums are
    safe integers; a [delta] that takes a sum past 2^53 is outside of
    what this definition describes. *)
Definition _moveSelection (delta : Z) (p : Palette) : Palette :=
  if bool_decide (length (filtered p) = 0%nat) then p
  else
    let len := Z.of_nat (length (filtered p)) in
    let newIndex := Z.rem (selectedIndex p + delta + len) len in
    _setSelectedIndex newIndex p.

(** *** Visibility and command invocation *)

Definition hide (p : Palette) : Palette :=
  if dialog_open p then emit EvDialogClose (set_dialog_open false p) else p.

(** The [try] block of [_runCommand]: the state it reaches and the
    exception it raises, if any. *)
Definition _runCommand_try (entry : Entry) (p : Palette)
  : Palette * option jsstring :=
  match run entry with
  | Some action =>
      let p1 := hide p in
      let p2 := emit (EvRun entry (dialog_open p1)) p1 in
      match action (dialog_open p1) with
      | RunReturns => (p2, None)
      | RunThrows err => (p2, Some err)
      | RunDefers settles => (set_pending (pending p2 ++ [settles]) p2, None)
      end
  | None => (emit (EvWarnNoRun entry) p, None)
  end.

(** [_runCommand], with its [catch]; the second component is the
    exception that leaves the method. *)
Definition _runCommand (entry : Entry) (p : Palette)
  : Palette * option jsstring :=
  match _runCommand_try entry p with
  | (p', None) => (p', None)
  | (p', Some err) => (emit (EvErrorExecutionFailed err) p', None)
  end.

(** The promise jobs: every promise [_runCommand] put a [catch] handler
    on settles, and the handler of a rejected one reports it. *)
Definition settle_pending (p : Palette) : Palette :=
  foldl (fun acc s =>
           match s with
           | Fulfils => acc
           | Rejects err => emit (EvErrorCommand err) acc
           end)
        (set_pending [] p) (pending p).

(** The [click] listener of row [idx] (rows are rebuilt whenever
    [filtered] changes, so [idx] indexes the current [filtered]). *)
Definition _onItemClick (idx : nat) (p : Palette) : Palette * option jsstring :=
  match filtered p !! idx with
  | Some entry => _runCommand entry (set_selectedIndex (Z.of_nat idx) p)
  | None => (p, None)
  end.

(** The [Enter] branch of [_onKeyDown]. *)
Definition _onEnter (p : Palette) : Palette * option jsstring :=
  if negb (dialog_open p) then (p, None)
  else if bool_decide (length (filtered p) = 0%nat) then (p, None)
  else if selectedIndex p <? 0 then (p, None)
  else match filtered p !! Z.to_nat (selectedIndex p) with
       | Some cmd => _runCommand cmd p
       | None => (p, None)
       end.

(** *** Population *)

(** What awaiting [this.populateFunc(this)] gives: the wrapper turns a
    value, a promise and a synchronous throw of the entry source alike
    into a promise, which resolves to a value or rejects. *)
Inductive PopulateResult :=
  | Resolved (v : JSValue)
  | Rejected (err : jsstring).

(** An [async] body that stops at the first rejected [await]: the state
    reached, and whether the body completed or left with a rejection. *)
Inductive Completion :=
  | Normal (p : Palette)
  | Abrupt (p : Palette) (err : jsstring).

Definition andThen (c : Completion) (k : Palette -> Completion) : Completion :=
  match c with
  | Normal p => k p
  | Abrupt p err => Abrupt p err
  end.

Definition state_of (c : Completion) : Palette :=
  match c with
  | Normal p => p
  | Abrupt p _ => p
  end.

(** [this.setCommands(await this.populateFunc(this))] *)
Definition populate (populateFunc : Palette -> PopulateResult) (p : Palette)
  : Completion :=
  match populateFunc p with
  | Resolved v => Normal (setCommands v p)
  | Rejected err => Abrupt p err
  end.

Definition has_behavior (b : PopulateBehavior) (p : Palette) : bool :=
  bool_decide (b ∈ populateBehavior (options p)).

(** [show(doc, prefill)].  [doc_has_body] is [doc.body] being there,
    [currentHostname] the host of the selected tab.  [Abrupt] is the
    promise [show] returns being rejected.  (The mouse lock, the focus of
    the input and the scroll lock of the page are left out.) *)
Definition show (populateFunc : Palette -> PopulateResult)
    (doc_has_body : bool) (currentHostname : jsstring) (prefill : jsstring)
    (p : Palette) : Completion :=
  if negb doc_has_body then Normal p
  else if match hostAllowList (options p) with
          | Some l => negb (bool_decide (currentHostname ∈ l))
          | None => false
          end
  then Normal p
  else
    andThen
      (if negb (ranOnce p) then
         let p1 := set_ranOnce true p in
         if has_behavior OnFirstShow p1 then populate populateFunc p1
         else Normal p1
       else Normal p)
      (fun p2 =>
         andThen
           (if has_behavior OnShow p2 then populate populateFunc p2
            else Normal p2)
           (fun p3 =>
              let p4 := emit EvShowModal (set_dialog_open true p3) in
              Normal (_onQueryChange (set_input_value prefill p4)))).

(** [init()]: the population runs in a detached [async] function whose
    promise nobody holds; [Abrupt] is that promise being rejected.
    [init] itself returns normally either way, after calling
    [OnAfterInitCallback], which belongs to the collaborator and is left
    out. *)
Definition init (populateFunc : Palette -> PopulateResult) (p : Palette)
  : Completion :=
  if has_behavior OnInit p then populate populateFunc p else Normal p.

(** *** Highlighting *)

Definition escape_char (c : Z) : jsstring :=
  if c =? 38 then js "&amp;"
  else if c =? 60 then js "&lt;"
  else if c =? 62 then js "&gt;"
  else if c =? 34 then js "&quot;"
  else if c =? 39 then js "&#39;"
  else [c].

Definition _escapeHtml (s : jsstring) : jsstring := flat_map escape_char s.

Definition span_open : jsstring :=
  js "<span class=" ++ [34] ++ js "cp-highlight" ++ [34] ++ js ">".
Definition span_close : jsstring := js "</span>".

Definition is_high_surrogate (c : Z) : bool := (55296 <=? c) && (c <=? 56319).
Definition is_low_surrogate (c : Z) : bool := (56320 <=? c) && (c <=? 57343).

(** [for (const char of text)]: a string iterates by code points, a
    surrogate pair coming out as one two-unit string. *)
Fixpoint codePoints (s : jsstring) : list jsstring :=
  match s with
  | [] => []
  | c :: s' =>
      match s' with
      | d :: s'' =>
          if is_high_surrogate c && is_low_surrogate d
          then [c; d] :: codePoints s''
          else [c] :: codePoints s'
      | [] => [[c]]
      end
  end.

(** One round of the fallback loop of [_highlight]. *)
Definition highlight_step (q : jsstring) (acc : jsstring * nat) (char : jsstring)
  : jsstring * nat :=
  let '(out, qi) := acc in
  if bool_decide (qi < length q)%nat
     && bool_decide (Some (toLowerCase char) = (fun c => [c]) <$> q !! qi)
  then (out ++ span_open ++ _escapeHtml char ++ span_close, S qi)
  else (out ++ _escapeHtml char, qi).

Definition _highlight (opts : Options) (text query : jsstring) : jsstring :=
  if negb (highlight opts) then _escapeHtml text
  else if str_eqb query [] then _escapeHtml text
  else
    let q := toLowerCase (trim query) in
    if str_eqb q [] then _escapeHtml text
    else
      let lowerText := toLowerCase text in
      let pos := indexOf lowerText q in
      if negb (pos =? -1) then
        let pos := Z.to_nat pos in
        let before := _escapeHtml (slice text 0 pos) in
        let match_ := _escapeHtml (slice text pos (pos + length q)) in
        let after := _escapeHtml (slice_from text (pos + length q)) in
        before ++ span_open ++ match_ ++ span_close ++ after
      else
        (foldl (highlight_step q) ([], 0%nat) (codePoints text)).1.

End Engine.

(** ** A concrete host and sample data *)

Definition ascii_lower_unit (c : Z) : Z :=
  if (65 <=? c) && (c <=? 90) then c + 32 else c.

(** Modelled from the spec: the order of titles, which the source leaves
    to the host's [localeCompare] and the specification calls
    case-sensitive lexicographic order.  Two strings are compared code
    unit by code unit; the answer is negative, zero or positive, the way a
    comparator answers. *)
Fixpoint codeunit_compare (a b : jsstring) : Z :=
  match a, b with
  | [], [] => 0
  | [], _ :: _ => -1
  | _ :: _, [] => 1
  | x :: a', y :: b' =>
      if x <? y then -1 else if y <? x then 1 else codeunit_compare a' b'
  end.

(** A host for strings of ASCII code units: [toLowerCase] maps [A-Z] to
    [a-z], and titles compare by [codeunit_compare]. *)
Definition ascii_host : Host :=
  {| toLowerCase := map ascii_lower_unit; localeCompare := codeunit_compare |}.

(** [DomainPickerSortFunc]: most tabs first. *)
Definition DomainPickerSortFunc (a b : Entry) : Z :=
  default 0 (count b) - default 0 (count a).

Definition default_options : Options :=
  {| minQueryLength := 0; fuzzy := true; highlight := true;
     populateBehavior := [OnFirstShow]; hostAllowList := None;
     initialSortFunc := None |}.

Definition domain_picker_options : Options :=
  {| minQueryLength := 0; fuzzy := true; highlight := true;
     populateBehavior := [OnShow]; hostAllowList := None;
     initialSortFunc := Some DomainPickerSortFunc |}.

(** An entry with a title and nothing else. *)
Definition titled (t : string) : Entry :=
  {| id := None; title := js t; subtitle := None; displayTitle := None;
     displaySubtitle := None; run := None; count := None |}.

(** An entry of a domain picker: an id, a title and a tab count. *)
Definition domain_entry (i t : string) (n : Z) : Entry :=
  {| id := Some (js i); title := js t; subtitle := None; displayTitle := None;
     displaySubtitle := None; run := None; count := Some n |}.

(** An entry whose action behaves as [o] whatever it observes. *)
Definition runnable (t : string) (o : RunOutcome) : Entry :=
  {| id := None; title := js t; subtitle := None; displayTitle := None;
     displaySubtitle := None; run := Some (fun _ => o); count := None |}.

(** A palette holding [cmds], unfiltered, with the cursor at [i]. *)
Definition palette_with (opts : Options) (cmds : list Entry) (i : Z) : Palette :=
  {| options := opts; commands := cmds; filtered := cmds; selectedIndex := i;
     input_value := []; dialog_open := true; ranOnce := true; trace := [];
     pending := [] |}.

(** *** The operations that change [filtered] or the selection *)

Inductive Op :=
  | OpInput (value : jsstring)
  | OpSetSelectedIndex (i : Z)
  | OpMoveSelection (delta : Z)
  | OpAdd (cmd : Entry)
  | OpRemove (identifier : Identifier)
  | OpSetCommands (list : JSValue).

Definition exec `{Host} (o : Op) (p : Palette) : Palette :=
  match o with
  | OpInput value => _onInput value p
  | OpSetSelectedIndex i => _setSelectedIndex i p
  | OpMoveSelection delta => _moveSelection delta p
  | OpAdd cmd => add cmd p
  | OpRemove identifier => remove identifier p
  | OpSetCommands list => setCommands list p
  end.

Definition exec_all `{Host} (ops : list Op) (p : Palette) : Palette :=
  foldl (fun acc o => exec o acc) p ops.

(** [selectedIndex] is an index of [filtered], or 0 when [filtered] is
    empty. *)
Definition selection_in_range (p : Palette) : Prop :=
  if bool_decide (filtered p = []) then selectedIndex p = 0
  else 0 <= selectedIndex p <= Z.of_nat (length (filtered p)) - 1.

(** The list [setCommands] keeps: sorted by [initialSortFunc] when one is
    configured. *)
Definition initially_sorted (opts : Options) (l : list Entry) : list Entry :=
  match initialSortFunc opts with
  | Some f => sort f l
  | None => l
  end.

(** [i] is the first index of [l] whose entry has the id [i0]. *)
Definition first_with_id (i0 : option jsstring) (l : list Entry) (i : nat) : Prop :=
  (exists e, l !! i = Some e ∧ id e = i0)
  ∧ forall j e, l !! j = Some e -> (j < i)%nat -> id e ≠ i0.

(** ** The notions the specification names *)

(** [needle] occurs in [s] as a contiguous run. *)
Definition substring (needle s : jsstring) : Prop :=
  exists l1 l2, s = l1 ++ needle ++ l2.

(** [n] when [P] holds, 0 otherwise. *)
Definition bonus (n : Z) (P : Prop) (s : Z) : Prop :=
  (P ∧ s = n) ∨ (¬ P ∧ s = 0).

(** The score as the specification words it, case folded by the host's
    [toLowerCase]: the five bonuses add up. *)
Definition spec_score `{Host} (opts : Options) (q : jsstring) (cmd : Entry) (s : Z) : Prop :=
  let query := toLowerCase q in
  let t := toLowerCase (title cmd) in
  let st := toLowerCase (default [] (subtitle cmd)) in
  exists s1 s2 s3 s4 s5,
    s = s1 + s2 + s3 + s4 + s5
    ∧ bonus 100 (t = query) s1
    ∧ bonus 75 (query `prefix_of` t) s2
    ∧ bonus 50 (substring query t) s3
    ∧ bonus 30 (substring query st) s4
    ∧ bonus 10 (fuzzy opts = true ∧ query `sublist_of` t) s5.

(** The order of the ranked list: higher score first, and among equal
    scores the title the host's [localeCompare] does not put later. *)
Definition ranked_before `{Host} (opts : Options) (query : jsstring) (a b : Entry) : Prop :=
  score opts query b < score opts query a
  ∨ (score opts query a = score opts query b
     ∧ localeCompare (title a) (title b) <= 0).

(** The characters HTML gives a meaning to. *)
Definition html_special (c : Z) : Prop := c ∈ [38; 60; 62; 34; 39].

(** Removing the highlight markers from a marked-up string: every
    opening and every closing tag of a highlight is cut out, the rest is
    kept.  [skip] counts the code units of a tag still to drop. *)
Fixpoint remove_markers_aux (skip : nat) (s : jsstring) : jsstring :=
  match s with
  | [] => []
  | c :: s' =>
      match skip with
      | S k => remove_markers_aux k s'
      | O =>
          if startsWith s span_open
          then remove_markers_aux (length span_open - 1) s'
          else if startsWith s span_close
          then remove_markers_aux (length span_close - 1) s'
          else c :: remove_markers_aux 0 s'
      end
  end.

Definition remove_markers (s : jsstring) : jsstring := remove_markers_aux 0 s.

(** The character references [_escapeHtml] writes, with the character
    each stands for. *)
Definition entities : list (jsstring * Z) :=
  [(js "&amp;", 38); (js "&lt;", 60); (js "&gt;", 62); (js "&quot;", 34);
   (js "&#39;", 39)].

(** Reading escaped text back, as a browser displays it: each of the five
    character references becomes its character. *)
Fixpoint unescape_aux (skip : nat) (s : jsstring) : jsstring :=
  match s with
  | [] => []
  | c :: s' =>
      match skip with
      | S k => unescape_aux k s'
      | O =>
          match find (fun e : jsstring * Z => startsWith s e.1) entities with
          | Some (ent, ch) => ch :: unescape_aux (length ent - 1) s'
          | None => c :: unescape_aux 0 s'
          end
      end
  end.

Definition unescapeHtml (s : jsstring) : jsstring := unescape_aux 0 s.

(** What [_highlight] writes, piece by piece: a piece of text is either
    marked or plain. *)
Definition render (pieces : list (bool * jsstring)) : jsstring :=
  flat_map (fun pc : bool * jsstring =>
              if pc.1 then span_open ++ _escapeHtml pc.2 ++ span_close
              else _escapeHtml pc.2) pieces.

(** [show] gets to the point where it polls the entry source: the
    document has a body, the host is allowed, and the policy asks for a
    population on this display. *)
Definition show_populates (doc_has_body : bool) (currentHostname : jsstring)
    (p : Palette) : Prop :=
  doc_has_body = true
  ∧ (forall l, hostAllowList (options p) = Some l -> currentHostname ∈ l)
  ∧ ((ranOnce p = false ∧ OnFirstShow ∈ populateBehavior (options p))
     ∨ OnShow ∈ populateBehavior (options p)).

(** A palette that shows on first display, not populated yet, and an
    entry source that fails. *)
Definition unpopulated : Palette := new_Palette default_options.
Definition failing_source (err : jsstring) (_ : Palette) : PopulateResult :=
  Rejected err.

(** A palette polled on its first display and on every display, and an
    entry source that answers [l] while the palette has no command and
    fails once it has some: on a first [show] of that palette the first
    poll resolves and the second one rejects. *)
Definition first_and_every_show_options : Options :=
  {| minQueryLength := 0; fuzzy := true; highlight := true;
     populateBehavior := [OnFirstShow; OnShow]; hostAllowList := None;
     initialSortFunc := None |}.

Definition failing_when_populated (l : list Entry) (err : jsstring)
    (q : Palette) : PopulateResult :=
  match commands q with
  | [] => Resolved (VArray l)
  | _ :: _ => Rejected err
  end.

(** [Number.MAX_SAFE_INTEGER].  A JavaScript number is a double: it holds
    every integer up to this bound in absolute value, and [+] on two such
    integers is the addition of [Z] when the sum is one of them; beyond
    the bound a sum is rounded. *)
Definition MAX_SAFE_INTEGER : Z := 2 ^ 53 - 1.

Definition safe_integer (z : Z) : Prop :=
  - MAX_SAFE_INTEGER <= z <= MAX_SAFE_INTEGER.

(** The operands and the two sums of
    [this.selectedIndex + delta + this.filtered.length], taken left to
    right, are safe integers: [_moveSelection delta] computes the sum
    without rounding. *)
Definition exact_move (delta : Z) (p : Palette) : Prop :=
  safe_integer (selectedIndex p)
  ∧ safe_integer delta
  ∧ safe_integer (Z.of_nat (length (filtered p)))
  ∧ safe_integer (selectedIndex p + delta)
  ∧ safe_integer (selectedIndex p + delta + Z.of_nat (length (filtered p))).

(** The reports the [catch] handlers make when the promises settle. *)
Definition rejection_reports (l : list Settlement) : list Event :=
  flat_map (fun s => match s with
                     | Fulfils => []
                     | Rejects err => [EvErrorCommand err]
                     end) l.

(** ** Arrays by reference *)

(** JavaScript arrays are objects: a caller that hands its array to
    [setCommands] keeps a reference to it.  Here arrays live in a store,
    and a value may be a reference into it. *)
Inductive RefValue :=
  | RUndefined
  | RNull
  | RBool (b : bool)
  | RNumber (n : Z)
  | RString (s : jsstring)
  | RObject
  | RArray (a : nat).

(** The contents [Array.isArray(list) ? list.slice() : []] copies. *)
Definition sliced (h : gmap nat (list Entry)) (arg : RefValue) : list Entry :=
  match arg with
  | RArray a => default [] (h !! a)
  | _ => []
  end.

(** What a reference value holds, as a value. *)
Definition deref (h : gmap nat (list Entry)) (arg : RefValue) : JSValue :=
  match arg with
  | RUndefined => VUndefined
  | RNull => VNull
  | RBool b => VBool b
  | RNumber n => VNumber n
  | RString s => VString s
  | RObject => VObject
  | RArray a => VArray (default [] (h !! a))
  end.

(** A new array with the contents [xs]. *)
Definition alloc (xs : list Entry) (h : gmap nat (list Entry))
  : nat * gmap nat (list Entry) :=
  let r := fresh (dom h) in (r, <[r := xs]> h).

(** Where the arrays of a palette are. *)
Record Arrays := { commands_at : nat; filtered_at : nat }.

(** [setCommands] on the store.  The copy is a new array; [sort] sorts
    that copy in place; [_onQueryChange] then makes [filtered] one more new
    array, holding the results. *)
Definition setCommands_in_store `{Host} (arg : RefValue) (p : Palette)
    (h : gmap nat (list Entry)) : Arrays * gmap nat (list Entry) :=
  let '(c, h1) := alloc (sliced h arg) h in
  let h2 := match initialSortFunc (options p) with
            | Some f => alter (sort f) c h1
            | None => h1
            end in
  let results :=
    filtered (_onQueryChange (set_commands (default [] (h2 !! c)) p)) in
  let '(f, h3) := alloc results h2 in
  ({| commands_at := c; filtered_at := f |}, h3).

(** A value that is not an array. *)
Definition not_array (v : JSValue) : Prop :=
  match v with
  | VArray _ => False
  | _ => True
  end.


(** ** Further notions, for the properties beyond the specification *)

(** Every entry of [filtered] is an entry of [commands], as often at
    most. *)
Definition filtered_within (p : Palette) : Prop :=
  filtered p ⊆+ commands p.

(** The ids the entries of a list declare: the non-empty ones. *)
Definition declared_ids (l : list Entry) : list (option jsstring) :=
  filter (fun i => truthy_id i = true) (map id l).

(** No two entries declare the same id. *)
Definition ids_unique (l : list Entry) : Prop := NoDup (declared_ids l).

(** An operation that is not [setCommands], which takes any list from
    its caller. *)
Definition not_setCommands (o : Op) : Prop :=
  match o with
  | OpSetCommands _ => False
  | _ => True
  end.

(** [a?.count ?? 0] *)
Definition count_or_0 (e : Entry) : Z := default 0 (count e).

(** [commands] is in the order of [initialSortFunc], when one is
    configured. *)
Definition commands_ordered (p : Palette) : Prop :=
  match initialSortFunc (options p) with
  | Some f => StronglySorted (fun a b => f a b <= 0) (commands p)
  | None => True
  end.

(** A comparator that orders: what it puts after, it does not put
    before, and its order is transitive. *)
Definition consistent_comparator {A} (cmp : A -> A -> Z) : Prop :=
  (forall a b, 0 < cmp a b -> cmp b a <= 0)
  ∧ (forall a b c, cmp a b <= 0 -> cmp b c <= 0 -> cmp a c <= 0).

(** The sort function a palette is configured with, if any, is
    consistent. *)
Definition sort_func_consistent (p : Palette) : Prop :=
  forall f, initialSortFunc (options p) = Some f -> consistent_comparator f.

(** The title of [cmd], case folded, is the query. *)
Definition exact_match `{Host} (query : jsstring) (cmd : Entry) : Prop :=
  toLowerCase (title cmd) = query.

(** The query is being filtered on: it is not empty after trimming, and
    not shorter than [minQueryLength]. *)
Definition filtering (p : Palette) : Prop :=
  trim (input_value p) ≠ []
  ∧ minQueryLength (options p) <= Z.of_nat (length (trim (input_value p))).

(** [show] does not refuse: the document has a body and the host is
    allowed. *)
Definition show_admitted (doc_has_body : bool) (currentHostname : jsstring)
    (p : Palette) : Prop :=
  doc_has_body = true
  ∧ forall l, hostAllowList (options p) = Some l -> currentHostname ∈ l.

(** The two halves of [_onQueryChange]: the list it computes, and the
    index it brings back into range. *)
Definition query_results `{Host} (p : Palette) : list Entry :=
  if minQueryLength (options p) <=? Z.of_nat (length (trim (input_value p)))
  then _filterCommands (trim (input_value p)) p
  else commands p.

Definition clamp_selection (sel : Z) (n : nat) : Z :=
  let i := Z.min sel (Z.max 0 (Z.of_nat n - 1)) in
  if i <? 0 then 0 else i.

(** What [setCommands] and [_onQueryChange] leave alone. *)
Definition same_surroundings (p q : Palette) : Prop :=
  options q = options p ∧ trace q = trace p ∧ dialog_open q = dialog_open p
  ∧ input_value q = input_value p ∧ pending q = pending p.

(** The entry source gives a value whenever it is asked. *)
Definition always_resolves (populateFunc : Palette -> PopulateResult) : Prop :=
  forall p, exists v, populateFunc p = Resolved v.

(** An entry source for examples: always the same entries. *)
Definition constant_source (l : list Entry) (_ : Palette) : PopulateResult :=
  Resolved (VArray l).

(** The entries [setCommands] takes from a value: those of an array,
    none of anything else. *)
Definition entries_of (v : JSValue) : list Entry :=
  match v with
  | VArray l => l
  | _ => []
  end.

(** ** The keyboard *)

(** [e.key], as far as [_onKeyDown] tells keys apart: [KeyP] and [KeyN]
    are the lower-case letters. *)
Inductive Key :=
  | KeyEscape | KeyArrowUp | KeyArrowDown | KeyTab | KeyEnter
  | KeyP | KeyN | KeyOther.

Record KeyboardEvent := { key : Key; ctrlKey : bool; shiftKey : bool }.

(** [_onKeyDown].  [input_focused] is
    [document.activeElement === this.input]; the result is the state and
    whether [preventDefault] was called. *)
Definition _onKeyDown (e : KeyboardEvent) (input_focused : bool) (p : Palette)
  : Palette * bool :=
  if negb (dialog_open p) then (p, false)
  else
    match key e with
    | KeyEscape => (hide p, true)
    | KeyArrowUp => (_moveSelection (-1) p, true)
    | KeyArrowDown => (_moveSelection 1 p, true)
    | KeyTab =>
        if shiftKey e && negb input_focused then (_moveSelection (-1) p, true)
        else if negb (shiftKey e) && input_focused then (_moveSelection 1 p, true)
        else (p, false)
    | KeyEnter =>
        if bool_decide (length (filtered p) = 0%nat) then (p, false)
        else ((_onEnter p).1, true)
    | KeyP => if ctrlKey e then (_moveSelection (-1) p, true) else (p, false)
    | KeyN => if ctrlKey e then (_moveSelection 1 p, true) else (p, false)
    | KeyOther => (p, false)
    end.

(** ** The rows of the dialog *)

(** A row of [results]: its [data-cmd-id], the HTML of its title, the
    HTML of its subtitle when it has one, and whether it carries
    [cp-selected] (and with it the id [cp-item-idx]). *)
Record Row := {
  data_cmd_id : jsstring;
  title_html : jsstring;
  sub_html : option jsstring;
  cp_selected : bool
}.

(** [String(idx)] *)
Definition decimal (idx : nat) : jsstring := js (pretty idx).

(** [_createResultItem(entry, idx, query)] *)
Definition _createResultItem `{Host} (p : Palette) (entry : Entry) (idx : nat)
    (query : jsstring) : Row :=
  let titleText := default (title entry) (displayTitle entry) in
  let subtitleText :=
    match displaySubtitle entry with
    | Some t => Some t
    | None => subtitle entry
    end in
  {| data_cmd_id :=
       if truthy_id (id entry) then default [] (id entry) else decimal idx;
     title_html := _highlight (options p) titleText query;
     sub_html :=
       match subtitleText with
       | Some (c :: t) => Some (_highlight (options p) (c :: t) query)
       | _ => None
       end;
     cp_selected := bool_decide (Z.of_nat idx = selectedIndex p) |}.

(** [_renderResults(query)]: the rows it leaves in [results]. *)
Definition _renderResults `{Host} (query : jsstring) (p : Palette) : list Row :=
  if bool_decide (length (filtered p) = 0%nat) then []
  else imap (fun idx cmd => _createResultItem p cmd idx query) (filtered p).

(** What [_setSelectedIndex] does to the rows there are: the mark goes
    to the row at the selected index and leaves every other row. *)
Definition mark_selected (sel : Z) (rows : list Row) : list Row :=
  imap (fun idx row =>
          {| data_cmd_id := data_cmd_id row; title_html := title_html row;
             sub_html := sub_html row;
             cp_selected := bool_decide (Z.of_nat idx = sel) |}) rows.

(** The palette together with the rows on screen. *)
Record View := { palette : Palette; rows : list Row }.

Definition new_View (opts : Options) : View :=
  {| palette := new_Palette opts; rows := [] |}.

(** The entry [remove] deletes, if it deletes one. *)
Definition remove_target (identifier : Identifier) (p : Palette) : option nat :=
  match identifier with
  | ByIndex idx =>
      if (idx <? 0) || (Z.of_nat (length (commands p)) <=? idx) then None
      else Some (Z.to_nat idx)
  | _ =>
      let i := match identifier with
               | ById s => Some s
               | ByEntry (Some e) => id e
               | _ => None
               end in
      if negb (truthy_id i) then None
      else
        let index := findIndex (fun obj => bool_decide (id obj = i)) (commands p) in
        if index =? -1 then None else Some (Z.to_nat index)
  end.

(** The operations on the view: the ones that end in [_onQueryChange]
    render the rows anew, [_setSelectedIndex] moves the mark on the rows
    there are, and the paths that return early touch nothing. *)
Definition exec_view `{Host} (o : Op) (v : View) : View :=
  let p := palette v in
  let rerendered p' :=
    {| palette := p'; rows := _renderResults (trim (input_value p')) p' |} in
  let reselected p' :=
    {| palette := p'; rows := mark_selected (selectedIndex p') (rows v) |} in
  match o with
  | OpInput value => rerendered (_onInput value p)
  | OpSetSelectedIndex i => reselected (_setSelectedIndex i p)
  | OpMoveSelection delta =>
      if bool_decide (length (filtered p) = 0%nat) then v
      else reselected (_moveSelection delta p)
  | OpAdd cmd => rerendered (add cmd p)
  | OpRemove identifier =>
      match remove_target identifier p with
      | Some _ => rerendered (remove identifier p)
      | None => v
      end
  | OpSetCommands list => rerendered (setCommands list p)
  end.

Definition exec_view_all `{Host} (ops : list Op) (v : View) : View :=
  foldl (fun acc o => exec_view o acc) v ops.

(** The rows on screen are the rows a fresh render of the state gives. *)
Definition up_to_date `{Host} (v : View) : Prop :=
  rows v = _renderResults (trim (input_value (palette v))) (palette v).

(** An entry with other texts to display, and the same texts to search. *)
Definition same_search_texts (g : Entry -> Entry) : Prop :=
  forall e, title (g e) = title e ∧ subtitle (g e) = subtitle e.
(** ** Properties of the fuzzy matcher *)

(** The loop leaves through its condition, not for lack of fuel. *)
Lemma fuzzy_loop_exit fuel query text qi ti :
  (length text - ti <= fuel)%nat ->
  let '(qi', ti') := fuzzy_loop fuel query text qi ti in
  ¬ (qi' < length query ∧ ti' < length text)%nat.
Proof.
  revert qi ti. induction fuel as [|fuel IH]; intros qi ti Hfuel; simpl.
  - lia.
  - case_bool_decide as Hc.
    + apply IH. lia.
    + exact Hc.
Qed.

Lemma fuzzy_loop_sublist fuel query text qi ti :
  (length text - ti <= fuel)%nat -> (qi <= length query)%nat ->
  (fuzzy_loop fuel query text qi ti).1 = length query
  <-> sublist (drop qi query) (drop ti text).
Proof.
  revert qi ti. induction fuel as [|fuel IH]; intros qi ti Hfuel Hqi; simpl.
  - rewrite (drop_ge text) by lia. rewrite sublist_nil_r. split.
    + intros ->. apply drop_ge. lia.
    + intros Hd. apply (f_equal length) in Hd. rewrite length_drop in Hd.
      simpl in Hd. lia.
  - case_bool_decide as Hc.
    + destruct Hc as [Hq Ht].
      destruct (lookup_lt_is_Some_2 query qi Hq) as [a Ha].
      destruct (lookup_lt_is_Some_2 text ti Ht) as [b Hb].
      rewrite (drop_S query a qi Ha), (drop_S text b ti Hb).
      rewrite Ha, Hb. case_bool_decide as Hab.
      * injection Hab as ->. rewrite IH by lia.
        rewrite sublist_cons_r. split.
        -- intros Hs. right. eauto.
        -- intros [Hs | (k & Hk & Hs)].
           ++ rewrite sublist_cons_l in Hs.
              destruct Hs as (k1 & k2 & -> & Hs).
              apply sublist_inserts_l, sublist_cons. exact Hs.
           ++ injection Hk as <-. exact Hs.
      * rewrite IH by lia. rewrite (drop_S query a qi Ha).
        rewrite (sublist_cons_r b). split.
        -- intros Hs. left. exact Hs.
        -- intros [Hs | (k & Hk & Hs)]; [exact Hs|].
           injection Hk as ->. congruence.
    + simpl. assert (qi = length query ∨ (qi < length query ∧ length text <= ti))%nat
        as [-> | [Hq Ht]] by lia.
      * rewrite drop_all. split; [intros _; apply sublist_nil_l | done].
      * rewrite (drop_ge text) by lia. rewrite sublist_nil_r. split; [lia|].
        intros Hd. apply (f_equal length) in Hd. rewrite length_drop in Hd.
        simpl in Hd. lia.
Qed.

Lemma fuzzyMatch_sublist (query text : jsstring) :
  _fuzzyMatch query text = true <-> sublist query text.
Proof.
  unfold _fuzzyMatch. case_bool_decide as Hlen.
  - apply length_zero_iff_nil in Hlen as ->. split; [intros _; apply sublist_nil_l | done].
  - pose proof (fuzzy_loop_sublist (length text) query text 0 0) as H.
    destruct (fuzzy_loop (length text) query text 0 0) as [qi ti] eqn:E.
    simpl in H. rewrite bool_decide_eq_true. apply H; lia.
Qed.

(** C2. [_fuzzyMatch query text] answers true exactly when the characters
    of [query] occur in [text] in order, not necessarily next to each
    other ([query] is a subsequence of [text]); the empty query matches
    every text. *)
Theorem fuzzyMatch_iff_subsequence (query text : jsstring) :
  (_fuzzyMatch query text = true <-> sublist query text)
  ∧ _fuzzyMatch [] text = true.
Proof. split; [apply fuzzyMatch_sublist | reflexivity]. Qed.

(** ** The selection cursor *)

Section Selection.
Context `{Host}.

Lemma filtered_setSelectedIndex i p : filtered (_setSelectedIndex i p) = filtered p.
Proof. reflexivity. Qed.

Lemma setSelectedIndex_in_range i p : selection_in_range (_setSelectedIndex i p).
Proof.
  unfold selection_in_range. rewrite filtered_setSelectedIndex.
  case_bool_decide as He; simpl.
  - rewrite He. simpl. lia.
  - assert (length (filtered p) ≠ 0%nat) by (by destruct (filtered p)). lia.
Qed.

Lemma onQueryChange_in_range p : selection_in_range (_onQueryChange p).
Proof.
  unfold selection_in_range, _onQueryChange. simpl.
  set (results := if minQueryLength (options p) <=? _ then _ else _).
  assert (Hlen : results = [] ∨ (0 < length results)%nat)
    by (destruct results; [by left | right; simpl; lia]).
  case_bool_decide as He; destruct Hlen as [Hl | Hl];
    try (rewrite He in Hl; simpl in Hl; lia); try done.
  - destruct (_ <? 0) eqn:E; [done|]. apply Z.ltb_ge in E.
    rewrite Hl in *. simpl in *. lia.
  - destruct (_ <? 0) eqn:E; [lia|]. apply Z.ltb_ge in E. lia.
Qed.

Lemma setCommands_in_range v p : selection_in_range (setCommands v p).
Proof.
  unfold setCommands. destruct (initialSortFunc (options p));
    apply onQueryChange_in_range.
Qed.

Create HintDb in_range.
#[local] Hint Resolve setSelectedIndex_in_range onQueryChange_in_range
  setCommands_in_range : in_range.

Lemma moveSelection_in_range delta p :
  selection_in_range p -> selection_in_range (_moveSelection delta p).
Proof.
  intros Hp. unfold _moveSelection. case_bool_decide; auto with in_range.
Qed.

Lemma remove_in_range identifier p :
  selection_in_range p -> selection_in_range (remove identifier p).
Proof.
  intros Hp. unfold remove.
  destruct identifier as [idx|s|e];
    repeat (match goal with |- context [if ?b then _ else _] => destruct b end);
    auto with in_range.
Qed.

Lemma exec_in_range o p : selection_in_range p -> selection_in_range (exec o p).
Proof.
  intros Hp. destruct o; unfold exec, _onInput, add;
    auto using moveSelection_in_range, remove_in_range with in_range.
Qed.

Lemma new_Palette_in_range opts : selection_in_range (new_Palette opts).
Proof. reflexivity. Qed.

Lemma exec_all_in_range ops p :
  selection_in_range p -> selection_in_range (exec_all ops p).
Proof.
  revert p. induction ops as [|o ops IH]; intros p Hp; simpl; [exact Hp|].
  apply IH, exec_in_range, Hp.
Qed.

(** C4. After a query change, [_setSelectedIndex] with any integer,
    [add] and [setCommands], whatever the state before, [selectedIndex]
    lies in [0, len(filtered)-1], or is 0 when [filtered] is empty;
    [_moveSelection] and [remove], which can leave the state as it is,
    keep it so; hence it holds after every sequence of these operations
    on a palette fresh from the constructor. *)
Theorem selectedIndex_always_in_range :
  (forall value p, selection_in_range (_onInput value p))
  ∧ (forall i p, selection_in_range (_setSelectedIndex i p))
  ∧ (forall cmd p, selection_in_range (add cmd p))
  ∧ (forall list p, selection_in_range (setCommands list p))
  ∧ (forall delta p, selection_in_range p -> selection_in_range (_moveSelection delta p))
  ∧ (forall identifier p, selection_in_range p -> selection_in_range (remove identifier p))
  ∧ (forall opts ops, selection_in_range (exec_all ops (new_Palette opts))).
Proof.
  repeat split.
  - intros. apply onQueryChange_in_range.
  - intros. apply setSelectedIndex_in_range.
  - intros. apply setCommands_in_range.
  - intros. apply setCommands_in_range.
  - intros. by apply moveSelection_in_range.
  - intros. by apply remove_in_range.
  - intros. apply exec_all_in_range, new_Palette_in_range.
Qed.

End Selection.

(** The invariant at work: with three commands and the cursor on the
    last, removing one brings the cursor back onto the list. *)
Lemma selectedIndex_always_in_range_witness :
  let p := palette_with default_options
             [titled "Open Tab"; titled "Close Tab"; titled "New Window"] 2 in
  selection_in_range p
  ∧ selection_in_range (remove (H := ascii_host) (ByIndex 1) p)
  ∧ selectedIndex (remove (H := ascii_host) (ByIndex 1) p) = 1.
Proof.
  split; [|split].
  - vm_compute. split; discriminate.
  - apply (proj1 (proj2 (proj2 (proj2 (proj2 (proj2
      (selectedIndex_always_in_range (H := ascii_host)))))))).
    vm_compute. split; discriminate.
  - reflexivity.
Defined.

(** C3, as stated, fails for a [delta] below [-(selectedIndex + len)]:
    three rows, the cursor on the first, and [delta = -4] give the
    remainder [-1], which [_setSelectedIndex] clamps to 0, where wrapping
    would give 2. *)
Lemma moveSelection_wraps_counterexample :
  let p := palette_with default_options
             [titled "Open Tab"; titled "Close Tab"; titled "New Window"] 0 in
  selectedIndex (_moveSelection (-4) p) = 0
  ∧ (selectedIndex p + -4 + Z.of_nat (length (filtered p)))
      mod Z.of_nat (length (filtered p)) = 2
  ∧ selectedIndex (_moveSelection (-4) p)
    ≠ (selectedIndex p + -4 + Z.of_nat (length (filtered p)))
        mod Z.of_nat (length (filtered p)).
Proof. repeat split. vm_compute. discriminate. Qed.

(** C3, amended. [_moveSelection delta] leaves the palette as it is when
    [filtered] is empty; otherwise, for every [delta] that keeps the sum
    [selectedIndex + delta + len(filtered)] exact (its operands and its
    partial sums are safe integers, at most 2^53 - 1 in absolute value)
    and not negative, it sets the selection to
    [(selectedIndex + delta + len(filtered)) mod len(filtered)].  On the
    first row [_moveSelection (-1)] selects the last row, and on the last
    row [_moveSelection 1] selects the first. *)
Theorem moveSelection_wraps (delta : Z) (p : Palette) :
  let len := Z.of_nat (length (filtered p)) in
  (filtered p = [] -> _moveSelection delta p = p)
  ∧ (filtered p ≠ [] -> exact_move delta p ->
     0 <= selectedIndex p + delta + len ->
     _moveSelection delta p
     = set_selectedIndex ((selectedIndex p + delta + len) mod len) p)
  ∧ (filtered p ≠ [] -> exact_move (-1) p -> selectedIndex p = 0 ->
     selectedIndex (_moveSelection (-1) p) = len - 1)
  ∧ (filtered p ≠ [] -> exact_move 1 p -> selectedIndex p = len - 1 ->
     selectedIndex (_moveSelection 1 p) = 0).
Proof.
  intros len. unfold _moveSelection.
  assert (Hwrap : forall d, filtered p ≠ [] -> 0 <= selectedIndex p + d + len ->
    Z.max 0 (Z.min (Z.rem (selectedIndex p + d + len) len) (len - 1))
    = (selectedIndex p + d + len) mod len).
  { intros d Hne Hd.
    assert (0 < len) by (subst len; destruct (filtered p); [done|simpl; lia]).
    rewrite Z.rem_mod_nonneg by lia.
    pose proof (Z.mod_pos_bound (selectedIndex p + d + len) len). lia. }
  split; [|split; [|split]].
  - intros ->. reflexivity.
  - intros Hne _ Hd. case_bool_decide as He.
    + destruct (filtered p); [done | discriminate].
    + unfold _setSelectedIndex. fold len. by rewrite Hwrap.
  - intros Hne _ Hs. case_bool_decide as He.
    + destruct (filtered p); [done | discriminate].
    + assert (0 < len) by (subst len; destruct (filtered p); [done|simpl; lia]).
      unfold _setSelectedIndex. simpl. fold len. rewrite Hwrap by first [assumption | lia].
      rewrite Hs. replace (0 + -1 + len) with (len - 1) by lia.
      apply Z.mod_small. lia.
  - intros Hne _ Hs. case_bool_decide as He.
    + destruct (filtered p); [done | discriminate].
    + assert (0 < len) by (subst len; destruct (filtered p); [done|simpl; lia]).
      unfold _setSelectedIndex. simpl. fold len. rewrite Hwrap by first [assumption | lia].
      rewrite Hs. replace (len - 1 + 1 + len) with (0 + 2 * len) by lia.
      rewrite Z.mod_add by lia. reflexivity.
Qed.

(** Three rows, the cursor on the second, two steps down: the cursor
    wraps to the first row. *)
Lemma moveSelection_wraps_witness :
  let p := palette_with default_options
             [titled "Open Tab"; titled "Close Tab"; titled "New Window"] 1 in
  filtered p ≠ []
  ∧ exact_move 2 p
  ∧ 0 <= selectedIndex p + 2 + Z.of_nat (length (filtered p))
  ∧ _moveSelection 2 p = set_selectedIndex 0 p.
Proof.
  intros p.
  assert (Hne : filtered p ≠ []) by discriminate.
  assert (Hex : exact_move 2 p) by (vm_compute; repeat split; discriminate).
  assert (Hd : 0 <= selectedIndex p + 2 + Z.of_nat (length (filtered p)))
    by (vm_compute; discriminate).
  split; [exact Hne|]. split; [exact Hex|]. split; [exact Hd|].
  exact (proj1 (proj2 (moveSelection_wraps 2 p)) Hne Hex Hd).
Defined.

(** ** Sorting keeps the elements *)

Lemma sort_insert_perm {A} (cmp : A -> A -> Z) x l : sort_insert cmp x l ≡ₚ x :: l.
Proof.
  induction l as [|y l IH]; simpl; [done|].
  destruct (cmp x y <=? 0); [done|].
  rewrite IH. apply perm_swap.
Qed.

Lemma sort_perm {A} (cmp : A -> A -> Z) l : sort cmp l ≡ₚ l.
Proof.
  induction l as [|x l IH]; simpl; [done|].
  fold (sort cmp l). by rewrite sort_insert_perm, IH.
Qed.

Lemma length_sort {A} (cmp : A -> A -> Z) l : length (sort cmp l) = length l.
Proof. apply Permutation_length, sort_perm. Qed.

Lemma initially_sorted_perm opts l : initially_sorted opts l ≡ₚ l.
Proof. unfold initially_sorted. destruct (initialSortFunc opts); [apply sort_perm|done]. Qed.

Lemma length_initially_sorted opts l : length (initially_sorted opts l) = length l.
Proof. apply Permutation_length, initially_sorted_perm. Qed.

(** ** [findIndex] *)

Lemma findIndex_first (i0 : option jsstring) (l : list Entry) (i : nat) :
  first_with_id i0 l i ->
  findIndex (fun obj => bool_decide (id obj = i0)) l = Z.of_nat i.
Proof.
  intros [(e & He & Hid) Hfirst]. unfold findIndex.
  assert (Hf : list_find (fun x => bool_decide (id x = i0) = true) l = Some (i, e)).
  { apply list_find_Some. split; [exact He|]. split.
    - by apply bool_decide_eq_true.
    - intros j y Hy Hj Hp. apply bool_decide_eq_true in Hp.
      by apply (Hfirst j y). }
  by rewrite Hf.
Qed.

Lemma findIndex_absent (i0 : option jsstring) (l : list Entry) :
  (forall e, e ∈ l -> id e ≠ i0) ->
  findIndex (fun obj => bool_decide (id obj = i0)) l = -1.
Proof.
  intros Hno. unfold findIndex.
  assert (Hf : list_find (fun x => bool_decide (id x = i0) = true) l = None).
  { apply list_find_None, Forall_forall. intros x Hx Hp.
    apply bool_decide_eq_true in Hp. by apply (Hno x). }
  by rewrite Hf.
Qed.

Lemma first_with_id_lt i0 l i : first_with_id i0 l i -> (i < length l)%nat.
Proof. intros [(e & He & _) _]. by apply lookup_lt_Some in He. Qed.

(** ** The mutation API *)

Section Mutation.
Context `{Host}.

Lemma commands_onQueryChange p : commands (_onQueryChange p) = commands p.
Proof. reflexivity. Qed.

Lemma commands_setCommands l p :
  commands (setCommands (VArray l) p) = initially_sorted (options p) l.
Proof.
  unfold setCommands, initially_sorted.
  destruct (initialSortFunc (options p)); reflexivity.
Qed.

Lemma add_existing cmd p i :
  truthy_id (id cmd) = true -> first_with_id (id cmd) (commands p) i ->
  add cmd p = setCommands (VArray (<[i := cmd]> (commands p))) p.
Proof.
  intros Ht Hi. unfold add. rewrite Ht, (findIndex_first _ _ i Hi).
  destruct (Z.eqb_spec (Z.of_nat i) (-1)); [lia|]. by rewrite Nat2Z.id.
Qed.

Lemma add_fresh cmd p :
  truthy_id (id cmd) = false ∨ (forall e, e ∈ commands p -> id e ≠ id cmd) ->
  add cmd p = setCommands (VArray (commands p ++ [cmd])) p.
Proof.
  intros Hc. unfold add.
  destruct (truthy_id (id cmd)) eqn:Ht.
  - destruct Hc as [Hc | Hc]; [done|]. by rewrite findIndex_absent.
  - reflexivity.
Qed.

(** C5, amended.  [add cmd], for a [cmd] with a non-empty id that an
    existing entry has, puts [cmd] in the place of the first such entry;
    for a [cmd] whose id no entry has, or without an id, it appends
    [cmd].  [commands] is that list, sorted by [initialSortFunc] when one
    is configured: its length is unchanged in the first case and one more
    in the second, and without [initialSortFunc] the entry replaced keeps
    its position. *)
Theorem add_replaces_or_appends (cmd : Entry) (p : Palette) :
  (forall i, truthy_id (id cmd) = true -> first_with_id (id cmd) (commands p) i ->
     commands (add cmd p) = initially_sorted (options p) (<[i := cmd]> (commands p))
     ∧ length (commands (add cmd p)) = length (commands p)
     ∧ (initialSortFunc (options p) = None ->
        commands (add cmd p) = <[i := cmd]> (commands p)
        ∧ commands (add cmd p) !! i = Some cmd))
  ∧ (truthy_id (id cmd) = false ∨ (forall e, e ∈ commands p -> id e ≠ id cmd) ->
     commands (add cmd p) = initially_sorted (options p) (commands p ++ [cmd])
     ∧ length (commands (add cmd p)) = S (length (commands p))
     ∧ (initialSortFunc (options p) = None ->
        commands (add cmd p) = commands p ++ [cmd])).
Proof.
  split.
  - intros i Ht Hi. rewrite (add_existing cmd p i Ht Hi), commands_setCommands.
    split; [done|]. split.
    + by rewrite length_initially_sorted, length_insert.
    + intros Hn. unfold initially_sorted. rewrite Hn. split; [done|].
      apply list_lookup_insert_eq. by eapply first_with_id_lt.
  - intros Hc. rewrite (add_fresh cmd p Hc), commands_setCommands.
    split; [done|]. split.
    + rewrite length_initially_sorted, length_app. simpl. lia.
    + intros Hn. unfold initially_sorted. by rewrite Hn.
Qed.

Lemma remove_at p (i : nat) :
  (i < length (commands p))%nat ->
  commands (setCommands (VArray (delete i (commands p))) p)
  = initially_sorted (options p) (delete i (commands p))
  ∧ S (length (commands (setCommands (VArray (delete i (commands p))) p)))
    = length (commands p).
Proof.
  intros Hi. rewrite commands_setCommands. split; [done|].
  rewrite length_initially_sorted, length_delete.
  - lia.
  - by apply lookup_lt_is_Some_2.
Qed.

Lemma remove_by_id p (i0 : jsstring) (i : nat) identifier :
  match identifier with
  | ById s => s = i0
  | ByEntry (Some e) => id e = Some i0
  | _ => False
  end ->
  i0 ≠ [] -> first_with_id (Some i0) (commands p) i ->
  remove identifier p = setCommands (VArray (delete i (commands p))) p.
Proof.
  intros Hident Hne Hi. unfold remove.
  assert (Ht : truthy_id (Some i0) = true) by (by destruct i0).
  destruct identifier as [idx|s|[e|]]; try done.
  - subst s. rewrite Ht. simpl. rewrite (findIndex_first _ _ i Hi).
    destruct (Z.eqb_spec (Z.of_nat i) (-1)); [lia|]. by rewrite Nat2Z.id.
  - rewrite Hident, Ht. simpl. rewrite (findIndex_first _ _ i Hi).
    destruct (Z.eqb_spec (Z.of_nat i) (-1)); [lia|]. by rewrite Nat2Z.id.
Qed.

(** C6. [remove] takes a numeric index, an id string or an entry (found
    by its id) and removes the entry at that index, or the first entry
    with that id; [commands] is the list without it (sorted by
    [initialSortFunc] when one is configured).  With an index outside
    [0, len(commands)-1], an id no entry has, an empty id, an entry
    without an id or [null], [remove] leaves the palette as it is. *)
Theorem remove_first_match_or_noop (p : Palette) :
  let after i := initially_sorted (options p) (delete i (commands p)) in
  (forall idx, 0 <= idx < Z.of_nat (length (commands p)) ->
     commands (remove (ByIndex idx) p) = after (Z.to_nat idx)
     ∧ S (length (commands (remove (ByIndex idx) p))) = length (commands p))
  ∧ (forall idx, ¬ (0 <= idx < Z.of_nat (length (commands p))) ->
     remove (ByIndex idx) p = p)
  ∧ (forall s i, s ≠ [] -> first_with_id (Some s) (commands p) i ->
     commands (remove (ById s) p) = after i
     ∧ S (length (commands (remove (ById s) p))) = length (commands p))
  ∧ (forall s, (forall e, e ∈ commands p -> id e ≠ Some s) -> remove (ById s) p = p)
  ∧ remove (ById []) p = p
  ∧ (forall e s i, id e = Some s -> s ≠ [] -> first_with_id (Some s) (commands p) i ->
     commands (remove (ByEntry (Some e)) p) = after i
     ∧ S (length (commands (remove (ByEntry (Some e))  p))) = length (commands p))
  ∧ (forall e, (forall e', e' ∈ commands p -> id e' ≠ id e) ->
     remove (ByEntry (Some e)) p = p)
  ∧ (forall e, truthy_id (id e) = false -> remove (ByEntry (Some e)) p = p)
  ∧ remove (ByEntry None) p = p.
Proof.
  intros after. split_and!.
  - intros idx Hidx. unfold remove.
    destruct (Z.ltb_spec idx 0); [lia|].
    destruct (Z.leb_spec (Z.of_nat (length (commands p))) idx); [lia|]. simpl.
    apply (remove_at p (Z.to_nat idx)). lia.
  - intros idx Hout. unfold remove.
    destruct (Z.ltb_spec idx 0); [done|].
    destruct (Z.leb_spec (Z.of_nat (length (commands p))) idx); [done|]. lia.
  - intros s i Hs Hi. rewrite (remove_by_id p s i (ById s)) by done.
    apply (remove_at p i). by eapply first_with_id_lt.
  - intros s Hno. unfold remove. destruct (truthy_id (Some s)); [|done]. simpl.
    by rewrite findIndex_absent.
  - reflexivity.
  - intros e s i He Hs Hi. rewrite (remove_by_id p s i (ByEntry (Some e))) by done.
    apply (remove_at p i). by eapply first_with_id_lt.
  - intros e Hno. unfold remove. destruct (truthy_id (id e)); [|done]. simpl.
    by rewrite findIndex_absent.
  - intros e Ht. unfold remove. by rewrite Ht.
  - reflexivity.
Qed.

End Mutation.

(** With [DomainPickerSortFunc] configured, the entry that replaces the
    one at position 1 has the higher count and moves to position 0: C5 as
    stated (the position is kept) fails. *)
Lemma add_keeps_position_counterexample :
  let p := setCommands (H := ascii_host)
             (VArray [domain_entry "a" "a.example" 5; domain_entry "b" "b.example" 3])
             (new_Palette domain_picker_options) in
  let cmd := domain_entry "b" "b.example" 10 in
  commands p = [domain_entry "a" "a.example" 5; domain_entry "b" "b.example" 3]
  ∧ commands (add (H := ascii_host) cmd p) = [cmd; domain_entry "a" "a.example" 5]
  ∧ commands (add (H := ascii_host) cmd p) !! 1%nat ≠ Some cmd.
Proof.
  split; [reflexivity|]. split; [reflexivity|].
  vm_compute. intros [=].
Qed.

(** Adding an entry whose id the second of two commands has replaces the
    second command. *)
Lemma add_replaces_or_appends_witness :
  let p := palette_with default_options
             [domain_entry "a" "a.example" 5; domain_entry "b" "b.example" 3] 0 in
  let cmd := domain_entry "b" "b.example" 10 in
  truthy_id (id cmd) = true
  ∧ first_with_id (id cmd) (commands p) 1
  ∧ commands (add (H := ascii_host) cmd p) = [domain_entry "a" "a.example" 5; cmd].
Proof.
  intros p cmd.
  assert (Ht : truthy_id (id cmd) = true) by reflexivity.
  assert (Hi : first_with_id (id cmd) (commands p) 1).
  { split.
    - exists (domain_entry "b" "b.example" 3). split; reflexivity.
    - intros [|j] e He Hj; [|lia]. injection He as <-. vm_compute. intros [=]. }
  split; [exact Ht|]. split; [exact Hi|].
  exact (proj1 (proj2 (proj2
    (proj1 (add_replaces_or_appends (H := ascii_host) cmd p) 1%nat Ht Hi)) eq_refl)).
Defined.

(** [remove(1)] on three commands removes the second. *)
Lemma remove_first_match_or_noop_witness :
  let p := palette_with default_options
             [titled "Open Tab"; titled "Close Tab"; titled "New Window"] 0 in
  0 <= 1 < Z.of_nat (length (commands p))
  ∧ commands (remove (H := ascii_host) (ByIndex 1) p)
    = [titled "Open Tab"; titled "New Window"].
Proof.
  intros p.
  assert (Hin : 0 <= 1 < Z.of_nat (length (commands p))) by (vm_compute; split; [discriminate | reflexivity]).
  split; [exact Hin|].
  exact (proj1 (proj1 (remove_first_match_or_noop (H := ascii_host) p) 1 Hin)).
Defined.

(** ** String searches *)

Lemma startsWith_prefix (s p : jsstring) : startsWith s p = true <-> p `prefix_of` s.
Proof.
  revert s. induction p as [|c p IH]; intros s; simpl.
  - split; [intros _; apply prefix_nil | done].
  - destruct s as [|d s].
    + split; [done|]. intros [k Hk]. discriminate.
    + rewrite andb_true_iff, Z.eqb_eq, IH. split.
      * intros [-> Hp]. by apply prefix_cons.
      * intros [k Hk]. injection Hk as -> ->. split; [done|]. by exists k.
Qed.

Lemma indexOf_from_unfold (s p : jsstring) (pos : Z) :
  indexOf_from s p pos
  = if startsWith s p then pos
    else match s with
         | [] => -1
         | _ :: s' => indexOf_from s' p (pos + 1)
         end.
Proof. by destruct s. Qed.

Lemma indexOf_from_found (s p : jsstring) (pos : Z) :
  0 <= pos -> (indexOf_from s p pos ≠ -1 <-> substring p s).
Proof.
  revert pos. induction s as [|c s IH]; intros pos Hpos;
    rewrite indexOf_from_unfold.
  - destruct (startsWith [] p) eqn:E.
    + split; [intros _ | lia]. apply startsWith_prefix in E as [k Hk].
      exists [], k. exact Hk.
    + split; [done|]. intros (l1 & l2 & Hs).
      destruct l1; [|done]. destruct p; [done | done].
  - destruct (startsWith (c :: s) p) eqn:E.
    + split; [intros _ | lia]. apply startsWith_prefix in E as [k Hk].
      exists [], k. exact Hk.
    + rewrite IH by lia. split.
      * intros (l1 & l2 & ->). by exists (c :: l1), l2.
      * intros (l1 & l2 & Hs). destruct l1 as [|d l1].
        -- assert (startsWith (c :: s) p = true); [|congruence].
           apply startsWith_prefix. exists l2. exact Hs.
        -- injection Hs as -> ->. by exists l1, l2.
Qed.

Lemma includes_substring (s p : jsstring) : includes s p = true <-> substring p s.
Proof.
  unfold includes, indexOf. rewrite negb_true_iff, Z.eqb_neq.
  by apply indexOf_from_found.
Qed.

Lemma bonus_if (b : bool) (P : Prop) (n : Z) :
  (b = true <-> P) -> bonus n P (if b then n else 0).
Proof.
  intros Hb. destruct b.
  - left. split; [by apply Hb | done].
  - right. split; [|done]. intros HP. apply Hb in HP. discriminate.
Qed.

(** ** The stable sort sorts *)

Section Sort.
Context {A : Type} (cmp : A -> A -> Z).
Hypothesis cmp_total : forall a b, 0 < cmp a b -> cmp b a <= 0.
Hypothesis cmp_trans : forall a b c, cmp a b <= 0 -> cmp b c <= 0 -> cmp a c <= 0.

Lemma sort_insert_sorted x l :
  StronglySorted (fun a b => cmp a b <= 0) l ->
  StronglySorted (fun a b => cmp a b <= 0) (sort_insert cmp x l).
Proof.
  induction 1 as [|y l Hl IH Hy]; simpl.
  - repeat constructor.
  - destruct (Z.leb_spec (cmp x y) 0) as [Hxy | Hxy].
    + constructor; [by constructor|]. constructor; [done|].
      eapply Forall_impl; [exact Hy|]. intros z Hz. by eapply cmp_trans.
    + constructor; [exact IH|].
      rewrite (sort_insert_perm cmp x l). constructor; [|done].
      by apply cmp_total.
Qed.

Lemma sort_sorted l : StronglySorted (fun a b => cmp a b <= 0) (sort cmp l).
Proof.
  induction l as [|x l IH]; simpl; [constructor|].
  by apply sort_insert_sorted.
Qed.

(** Sorting a sorted list changes nothing. *)
Lemma sort_sorted_id l :
  StronglySorted (fun a b => cmp a b <= 0) l -> sort cmp l = l.
Proof.
  induction 1 as [|x l Hl IH Hx]; simpl; [done|].
  fold (sort cmp l). rewrite IH. destruct l as [|y l]; [done|]. simpl.
  apply Forall_cons in Hx as [Hxy _].
  by destruct (Z.leb_spec (cmp x y) 0); [|lia].
Qed.

End Sort.

(** ** Ranking and filtering *)

Section Filter.
Context `{Host}.

Lemma score_as_specified opts q cmd :
  spec_score opts q cmd (score opts (toLowerCase q) cmd).
Proof.
  unfold spec_score, score. do 5 eexists. split; [reflexivity|].
  split_and!; apply bonus_if.
  - unfold str_eqb. apply bool_decide_eq_true.
  - apply startsWith_prefix.
  - apply includes_substring.
  - apply includes_substring.
  - rewrite andb_true_iff, fuzzyMatch_sublist. done.
Qed.

Lemma scored_positive_fst query opts (l : list Entry) :
  map fst (List.filter (fun x : Entry * Z => 0 <? x.2)
             (map (fun cmd => (cmd, score opts query cmd)) l))
  = filter (fun cmd => 0 < score opts query cmd) l.
Proof.
  induction l as [|cmd l IH]; simpl; [done|].
  rewrite filter_cons. destruct (Z.ltb_spec 0 (score opts query cmd)).
  - rewrite decide_True by done. simpl. by rewrite IH.
  - rewrite decide_False by lia. exact IH.
Qed.

Lemma scored_carry_score query opts (l : list Entry) :
  Forall (fun x : Entry * Z => x.2 = score opts query x.1)
    (List.filter (fun x : Entry * Z => 0 <? x.2)
       (map (fun cmd => (cmd, score opts query cmd)) l)).
Proof.
  induction l as [|cmd l IH]; simpl; [constructor|].
  destruct (0 <? score opts query cmd); [constructor|]; done.
Qed.

Lemma ranked_of_compare_scored opts query (l : list (Entry * Z)) :
  Forall (fun x : Entry * Z => x.2 = score opts query x.1) l ->
  StronglySorted (fun a b => compare_scored a b <= 0) l ->
  StronglySorted (ranked_before opts query) (map fst l).
Proof.
  intros Hsc Hs. induction Hs as [|x l Hl IH Hx]; simpl; [constructor|].
  apply Forall_cons in Hsc as [Hx2 Hsc]. constructor; [by apply IH|].
  apply Forall_map, Forall_forall. intros y Hy.
  rewrite Forall_forall in Hx, Hsc. specialize (Hx y Hy). specialize (Hsc y Hy).
  unfold compare_scored in Hx. unfold ranked_before. simpl.
  rewrite <- Hx2, <- Hsc.
  destruct (Z.eqb_spec (y.2 - x.2) 0); [right; split; [lia | done] | left; lia].
Qed.

(** C1. With [q] the trimmed query: when [q] is empty or shorter than
    [minQueryLength], [filtered] is [commands] as it stands; otherwise
    [filtered] holds exactly the commands whose score is positive, the
    score being the sum of 100 for a title equal to [q], 75 for a title
    starting with [q], 50 for a title containing [q], 30 for a subtitle
    containing [q] (all four after case folding) and 10 for [q] being a
    subsequence of the title when [fuzzy] is set; and [filtered] is in
    descending order of score, equal scores in ascending order of title
    as the host compares titles. *)
Theorem filter_ranks_by_score (p : Palette) :
  (forall a b, 0 < localeCompare a b -> localeCompare b a <= 0) ->
  (forall a b c, localeCompare a b <= 0 -> localeCompare b c <= 0 ->
     localeCompare a c <= 0) ->
  let q := trim (input_value p) in
  let opts := options p in
  let result := filtered (_onQueryChange p) in
  (q = [] ∨ Z.of_nat (length q) < minQueryLength opts -> result = commands p)
  ∧ (q ≠ [] -> minQueryLength opts <= Z.of_nat (length q) ->
     result ≡ₚ filter (fun cmd => 0 < score opts (toLowerCase q) cmd) (commands p)
     ∧ (forall cmd, spec_score opts q cmd (score opts (toLowerCase q) cmd))
     ∧ StronglySorted (ranked_before opts (toLowerCase q)) result).
Proof.
  intros Htotal Htrans q opts result. subst result. unfold _onQueryChange. simpl.
  fold q. fold opts. split.
  - intros Hq. destruct (Z.leb_spec (minQueryLength opts) (Z.of_nat (length q)));
      [|done].
    destruct Hq as [Hq | Hq]; [|lia]. unfold _filterCommands. by rewrite Hq.
  - intros Hq Hmin.
    destruct (Z.leb_spec (minQueryLength opts) (Z.of_nat (length q))); [|lia].
    unfold _filterCommands, str_eqb. rewrite bool_decide_eq_false_2 by done.
    fold opts. split_and!.
    + rewrite <- scored_positive_fst. apply fmap_Permutation, sort_perm.
    + intros cmd. apply score_as_specified.
    + apply ranked_of_compare_scored.
      * rewrite sort_perm. apply scored_carry_score.
      * apply sort_sorted.
        -- intros a b. unfold compare_scored.
           destruct (Z.eqb_spec (b.2 - a.2) 0), (Z.eqb_spec (a.2 - b.2) 0);
             try lia. apply Htotal.
        -- intros a b c. unfold compare_scored.
           destruct (Z.eqb_spec (b.2 - a.2) 0), (Z.eqb_spec (c.2 - b.2) 0),
             (Z.eqb_spec (c.2 - a.2) 0); try lia. apply Htrans.
Qed.

End Filter.

(** ** The sample host compares consistently *)

Lemma codeunit_compare_total (a b : jsstring) :
  0 < codeunit_compare a b -> codeunit_compare b a <= 0.
Proof.
  revert b. induction a as [|x a IH]; intros [|y b]; simpl; try lia.
  destruct (Z.ltb_spec x y), (Z.ltb_spec y x); try lia. apply IH.
Qed.

Lemma codeunit_compare_trans (a b c : jsstring) :
  codeunit_compare a b <= 0 -> codeunit_compare b c <= 0 ->
  codeunit_compare a c <= 0.
Proof.
  revert b c. induction a as [|x a IH]; intros [|y b] [|z c]; simpl; try lia.
  destruct (Z.ltb_spec x y), (Z.ltb_spec y x), (Z.ltb_spec y z), (Z.ltb_spec z y),
    (Z.ltb_spec x z), (Z.ltb_spec z x); try lia.
  apply IH.
Qed.

(** Three commands and the query [tab]: the two titles that contain it
    score alike and come out in the order of their titles. *)
Lemma filter_ranks_by_score_witness :
  let p := set_input_value (js "tab")
             (palette_with default_options
                [titled "Open Tab"; titled "Close Tab"; titled "New Window"] 0) in
  let q := trim (input_value p) in
  q ≠ []
  ∧ minQueryLength (options p) <= Z.of_nat (length q)
  ∧ filtered (_onQueryChange (H := ascii_host) p)
    = [titled "Close Tab"; titled "Open Tab"]
  ∧ StronglySorted (ranked_before (H := ascii_host) (options p) (js "tab"))
      (filtered (_onQueryChange (H := ascii_host) p)).
Proof.
  intros p q.
  assert (Hq : q ≠ []) by discriminate.
  assert (Hmin : minQueryLength (options p) <= Z.of_nat (length q))
    by (vm_compute; discriminate).
  split; [exact Hq|]. split; [exact Hmin|]. split; [reflexivity|].
  exact (proj2 (proj2 (proj2 (filter_ranks_by_score (H := ascii_host) p
           codeunit_compare_total codeunit_compare_trans) Hq Hmin))).
Defined.

(** The scores of the scenarios of the specification. *)
Example score_exact_title :
  score (H := ascii_host) default_options (js "open tab") (titled "Open Tab") = 235.
Proof. reflexivity. Qed.

Example score_fuzzy_only :
  score (H := ascii_host) default_options (js "cat") (titled "Close All Tabs") = 10.
Proof. reflexivity. Qed.

Example below_minQueryLength :
  let opts := {| minQueryLength := 2; fuzzy := true; highlight := true;
                 populateBehavior := [OnFirstShow]; hostAllowList := None;
                 initialSortFunc := None |} in
  let cmds := [titled "Open Tab"; titled "Close Tab"; titled "New Window"] in
  filtered (_onQueryChange (H := ascii_host)
              (set_input_value (js "t") (palette_with opts cmds 0))) = cmds.
Proof. reflexivity. Qed.

(** ** Highlighting *)

Lemma escapeHtml_app (a b : jsstring) :
  _escapeHtml (a ++ b) = _escapeHtml a ++ _escapeHtml b.
Proof. unfold _escapeHtml. apply flat_map_app. Qed.

Lemma escape_char_cases (c : Z) :
  (c = 38 ∧ escape_char c = js "&amp;")
  ∨ (c = 60 ∧ escape_char c = js "&lt;")
  ∨ (c = 62 ∧ escape_char c = js "&gt;")
  ∨ (c = 34 ∧ escape_char c = js "&quot;")
  ∨ (c = 39 ∧ escape_char c = js "&#39;")
  ∨ (¬ html_special c ∧ escape_char c = [c]).
Proof.
  unfold escape_char, html_special.
  destruct (Z.eqb_spec c 38); [by left|right].
  destruct (Z.eqb_spec c 60); [by left|right].
  destruct (Z.eqb_spec c 62); [by left|right].
  destruct (Z.eqb_spec c 34); [by left|right].
  destruct (Z.eqb_spec c 39); [by left|right].
  split; [|done]. rewrite !elem_of_cons, elem_of_nil. lia.
Qed.

Lemma not_special_ne (c : Z) :
  ¬ html_special c -> c ≠ 38 ∧ c ≠ 60 ∧ c ≠ 62 ∧ c ≠ 34 ∧ c ≠ 39.
Proof.
  unfold html_special. rewrite !elem_of_cons, elem_of_nil. lia.
Qed.

(** No [<], [>], double or single quote is left in escaped text. *)
Lemma escapeHtml_no_markup (s : jsstring) :
  Forall (fun c => c ∉ [60; 62; 34; 39]) (_escapeHtml s).
Proof.
  induction s as [|c s IH]; simpl; [constructor|].
  apply Forall_app. split; [|exact IH].
  destruct (escape_char_cases c) as [[_ ->]|[[_ ->]|[[_ ->]|[[_ ->]|[[_ ->]|[Hc ->]]]]]];
    try compute_done.
  apply not_special_ne in Hc. constructor; [|constructor].
  rewrite !elem_of_cons, elem_of_nil. lia.
Qed.

Lemma startsWith_head_ne (c m : Z) (s ms : jsstring) :
  c ≠ m -> startsWith (c :: s) (m :: ms) = false.
Proof. intros Hne. simpl. destruct (Z.eqb_spec m c); [congruence | done]. Qed.

Lemma remove_markers_aux_skip (l rest : jsstring) :
  remove_markers_aux (length l) (l ++ rest) = remove_markers_aux 0 rest.
Proof.
  induction l as [|c l IH]; simpl; [done|]. exact IH.
Qed.

Lemma startsWith_app (p rest : jsstring) : startsWith (p ++ rest) p = true.
Proof. apply startsWith_prefix. by exists rest. Qed.

Lemma remove_markers_open (rest : jsstring) :
  remove_markers (span_open ++ rest) = remove_markers rest.
Proof.
  unfold remove_markers.
  pose proof (startsWith_app span_open rest) as Hs.
  change (span_open ++ rest) with (60 :: (tl span_open ++ rest)) in *.
  cbn [remove_markers_aux]. rewrite Hs.
  change (length span_open - 1)%nat with (length (tl span_open)).
  apply remove_markers_aux_skip.
Qed.

Lemma remove_markers_close (rest : jsstring) :
  remove_markers (span_close ++ rest) = remove_markers rest.
Proof.
  unfold remove_markers.
  pose proof (startsWith_app span_close rest) as Hs.
  assert (Ho : startsWith (span_close ++ rest) span_open = false) by reflexivity.
  change (span_close ++ rest) with (60 :: (tl span_close ++ rest)) in *.
  cbn [remove_markers_aux]. rewrite Ho, Hs.
  change (length span_close - 1)%nat with (length (tl span_close)).
  apply remove_markers_aux_skip.
Qed.

Lemma remove_markers_plain (c : Z) (rest : jsstring) :
  c ≠ 60 -> remove_markers (c :: rest) = c :: remove_markers rest.
Proof.
  intros Hc. unfold remove_markers. cbn [remove_markers_aux].
  change span_open with (60 :: tl span_open).
  change span_close with (60 :: tl span_close).
  by rewrite !startsWith_head_ne.
Qed.

Lemma remove_markers_escape_char (c : Z) (rest : jsstring) :
  remove_markers (escape_char c ++ rest) = escape_char c ++ remove_markers rest.
Proof.
  destruct (escape_char_cases c) as [[_ ->]|[[_ ->]|[[_ ->]|[[_ ->]|[[_ ->]|[Hc ->]]]]]];
    try (cbn [js map list_ascii_of_string app]; simpl nat_of_ascii;
         simpl Z.of_nat; by rewrite !remove_markers_plain).
  apply not_special_ne in Hc. simpl. apply remove_markers_plain. lia.
Qed.

Lemma remove_markers_escaped (s rest : jsstring) :
  remove_markers (_escapeHtml s ++ rest) = _escapeHtml s ++ remove_markers rest.
Proof.
  induction s as [|c s IH]; simpl; [done|].
  by rewrite <- !app_assoc, remove_markers_escape_char, IH.
Qed.

Lemma render_cons (marked : bool) (t : jsstring) (pieces : list (bool * jsstring)) :
  render ((marked, t) :: pieces)
  = (if marked then span_open ++ _escapeHtml t ++ span_close else _escapeHtml t)
    ++ render pieces.
Proof. reflexivity. Qed.

Lemma remove_markers_render (pieces : list (bool * jsstring)) :
  remove_markers (render pieces) = _escapeHtml (concat (map snd pieces)).
Proof.
  induction pieces as [|[[] t] pieces IH]; [reflexivity| |];
    rewrite render_cons, map_cons, concat_cons, escapeHtml_app; cbn [snd].
  - rewrite <- !app_assoc, remove_markers_open, remove_markers_escaped,
      remove_markers_close.
    by rewrite IH.
  - by rewrite remove_markers_escaped, IH.
Qed.

Lemma render_app (a b : list (bool * jsstring)) : render (a ++ b) = render a ++ render b.
Proof. unfold render. apply flat_map_app. Qed.

Lemma concat_codePoints (s : jsstring) : concat (codePoints s) = s.
Proof.
  enough (Hboth : concat (codePoints s) = s
                  ∧ forall c, concat (codePoints (c :: s)) = c :: s) by apply Hboth.
  induction s as [|d s [IH1 IH2]].
  - split; [done|]. intros c. reflexivity.
  - split; [apply IH2|]. intros c.
    change (codePoints (c :: d :: s))
      with (if is_high_surrogate c && is_low_surrogate d
            then [c; d] :: codePoints s else [c] :: codePoints (d :: s)).
    destruct (is_high_surrogate c && is_low_surrogate d); rewrite concat_cons.
    + by rewrite IH1.
    + by rewrite IH2.
Qed.

Lemma unescape_aux_skip (l rest : jsstring) :
  unescape_aux (length l) (l ++ rest) = unescape_aux 0 rest.
Proof. induction l as [|c l IH]; simpl; [done|]. exact IH. Qed.

Lemma unescape_escape_char (c : Z) (rest : jsstring) :
  unescapeHtml (escape_char c ++ rest) = c :: unescapeHtml rest.
Proof.
  unfold unescapeHtml.
  destruct (escape_char_cases c) as [[-> ->]|[[-> ->]|[[-> ->]|[[-> ->]|[[-> ->]|[Hc ->]]]]]].
  - exact (f_equal (cons 38) (unescape_aux_skip (js "amp;") rest)).
  - exact (f_equal (cons 60) (unescape_aux_skip (js "lt;") rest)).
  - exact (f_equal (cons 62) (unescape_aux_skip (js "gt;") rest)).
  - exact (f_equal (cons 34) (unescape_aux_skip (js "quot;") rest)).
  - exact (f_equal (cons 39) (unescape_aux_skip (js "#39;") rest)).
  - apply not_special_ne in Hc.
    assert (Hf : find (fun e : jsstring * Z => startsWith (c :: rest) e.1) entities = None).
    { assert (Hhd : forall t, startsWith (c :: rest) (38 :: t) = false)
        by (intros t; apply startsWith_head_ne; lia).
      unfold entities. cbn [find fst].
      change (js "&amp;") with (38 :: js "amp;").
      change (js "&lt;") with (38 :: js "lt;").
      change (js "&gt;") with (38 :: js "gt;").
      change (js "&quot;") with (38 :: js "quot;").
      change (js "&#39;") with (38 :: js "#39;").
      by rewrite !Hhd. }
    change ([c] ++ rest) with (c :: rest). cbn [unescape_aux]. by rewrite Hf.
Qed.

(** Escaping loses nothing: reading the escaped text back gives the
    text. *)
Lemma unescape_escapeHtml (s : jsstring) : unescapeHtml (_escapeHtml s) = s.
Proof.
  induction s as [|c s IH]; simpl; [done|].
  by rewrite unescape_escape_char, IH.
Qed.

Section Highlight.
Context `{Host}.

Lemma highlight_step_renders q pieces qi char :
  exists marked qi',
    highlight_step q (render pieces, qi) char
    = (render (pieces ++ [(marked, char)]), qi').
Proof.
  unfold highlight_step.
  destruct (bool_decide (qi < length q)%nat && _).
  - exists true, (S qi). rewrite render_app, render_cons. cbn [render flat_map].
    by rewrite app_nil_r.
  - exists false, qi. rewrite render_app, render_cons. cbn [render flat_map].
    by rewrite app_nil_r.
Qed.

Lemma highlight_loop_renders q cps pieces qi :
  exists pieces',
    (foldl (highlight_step q) (render pieces, qi) cps).1 = render (pieces ++ pieces')
    ∧ map snd pieces' = cps.
Proof.
  revert pieces qi. induction cps as [|char cps IH]; intros pieces qi; cbn [foldl].
  - exists []. by rewrite app_nil_r.
  - destruct (highlight_step_renders q pieces qi char) as (marked & qi' & ->).
    destruct (IH (pieces ++ [(marked, char)]) qi') as (pieces' & -> & <-).
    exists ((marked, char) :: pieces'). by rewrite <- app_assoc.
Qed.

(** [_highlight] writes its text in pieces, marked or plain, each
    escaped, and the pieces put together are the text. *)
Lemma highlight_renders opts text query :
  exists pieces,
    _highlight opts text query = render pieces
    ∧ concat (map snd pieces) = text.
Proof.
  assert (Hplain : exists pieces,
    _escapeHtml text = render pieces ∧ concat (map snd pieces) = text).
  { exists [(false, text)]. rewrite render_cons. cbn [render flat_map concat map snd].
    by rewrite !app_nil_r. }
  unfold _highlight.
  destruct (negb (highlight opts)); [exact Hplain|].
  destruct (str_eqb query []); [exact Hplain|].
  destruct (str_eqb (toLowerCase (trim query)) []); [exact Hplain|].
  destruct (negb (indexOf (toLowerCase text) (toLowerCase (trim query)) =? -1)).
  - set (pos := Z.to_nat _). set (n := length _).
    exists [(false, slice text 0 pos); (true, slice text pos (pos + n));
            (false, slice_from text (pos + n))].
    split.
    + rewrite !render_cons. cbn [render flat_map]. by rewrite app_nil_r, <- !app_assoc.
    + cbn [concat map snd]. unfold slice, slice_from. rewrite app_nil_r.
      rewrite drop_0, Nat.sub_0_r.
      replace (pos + n - pos)%nat with n by lia.
      rewrite <- (take_drop pos text) at 4. f_equal.
      rewrite <- (drop_drop text n pos). apply take_drop.
  - destruct (highlight_loop_renders (toLowerCase (trim query)) (codePoints text) [] 0)
      as (pieces & Hp & Hc).
    exists pieces. split; [exact Hp|]. rewrite Hc. apply concat_codePoints.
Qed.

(** C7. Whatever the text and the query, [_highlight] returns a string
    (it has no failing path) from which removing the highlight markers
    gives exactly the escaped text; the escaped text holds no [<], [>],
    double or single quote, and reading its character references back
    gives the text, [&] included; with highlighting disabled the result is
    the escaped text itself, without markup. *)
Theorem highlight_escapes_text (opts : Options) (text query : jsstring) :
  remove_markers (_highlight opts text query) = _escapeHtml text
  ∧ Forall (fun c => c ∉ [60; 62; 34; 39]) (_escapeHtml text)
  ∧ unescapeHtml (_escapeHtml text) = text
  ∧ (highlight opts = false -> _highlight opts text query = _escapeHtml text).
Proof.
  split_and!.
  - destruct (highlight_renders opts text query) as (pieces & -> & Hc).
    by rewrite remove_markers_render, Hc.
  - apply escapeHtml_no_markup.
  - apply unescape_escapeHtml.
  - intros Hoff. unfold _highlight. by rewrite Hoff.
Qed.

End Highlight.

(** A title with every special character, highlighted for [b]. *)
Example highlight_special_characters :
  _highlight (H := ascii_host) default_options (js "a<b>&'c") (js "B")
  = js "a&lt;" ++ span_open ++ js "b" ++ span_close ++ js "&gt;&amp;&#39;c".
Proof. reflexivity. Qed.

Lemma highlight_escapes_text_witness :
  let opts := {| minQueryLength := 0; fuzzy := true; highlight := false;
                 populateBehavior := [OnFirstShow]; hostAllowList := None;
                 initialSortFunc := None |} in
  highlight opts = false
  ∧ _highlight (H := ascii_host) opts (js "a<b") (js "b") = js "a&lt;b".
Proof.
  intros opts.
  assert (Hoff : highlight opts = false) by reflexivity.
  split; [exact Hoff|].
  exact (proj2 (proj2 (proj2
    (highlight_escapes_text (H := ascii_host) opts (js "a<b") (js "b")))) Hoff).
Defined.

(** ** Population *)

Section Population.
Context `{Host}.

Lemma has_behavior_set_ranOnce b v p :
  has_behavior b (set_ranOnce v p) = has_behavior b p.
Proof. reflexivity. Qed.

End Population.

(** ** Command invocation *)

Lemma settle_fold (l : list Settlement) (p : Palette) :
  let p' := foldl (fun acc s =>
                     match s with
                     | Fulfils => acc
                     | Rejects err => emit (EvErrorCommand err) acc
                     end) p l in
  trace p' = trace p ++ rejection_reports l ∧ pending p' = pending p.
Proof.
  revert p. induction l as [|s l IH]; intros p; simpl.
  - by rewrite app_nil_r.
  - destruct (IH (match s with
                  | Fulfils => p
                  | Rejects err => emit (EvErrorCommand err) p
                  end)) as [Ht Hp].
    rewrite Ht, Hp. destruct s; simpl; [done|]. by rewrite <- app_assoc.
Qed.

Lemma trace_settle_pending (p : Palette) :
  trace (settle_pending p) = trace p ++ rejection_reports (pending p)
  ∧ pending (settle_pending p) = [].
Proof. unfold settle_pending. apply (settle_fold (pending p) (set_pending [] p)). Qed.

Lemma rejection_reports_app (a b : list Settlement) :
  rejection_reports (a ++ b) = rejection_reports a ++ rejection_reports b.
Proof. unfold rejection_reports. apply flat_map_app. Qed.

(** C9. Selecting a row by click or by Enter runs [_runCommand] on its
    entry.  For an entry with an action, the dialog is closed first and
    the action is called next, with the dialog closed; no exception leaves
    [_runCommand]: an action that throws is reported at once, one that
    returns a promise gets a handler that reports a later rejection when
    the promise settles, and not before.  An entry without an action gives
    a warning and nothing else. *)
Theorem runCommand_hides_then_runs (entry : Entry) (p : Palette) :
  let closing := if dialog_open p then [EvDialogClose] else [] in
  (forall action, run entry = Some action ->
     let p' := (_runCommand entry p).1 in
     (_runCommand entry p).2 = None
     ∧ dialog_open p' = false
     ∧ commands p' = commands p
     ∧ match action false with
       | RunReturns =>
           trace p' = trace p ++ closing ++ [EvRun entry false]
           ∧ pending p' = pending p
       | RunThrows err =>
           trace p' = trace p ++ closing ++ [EvRun entry false; EvErrorExecutionFailed err]
           ∧ pending p' = pending p
       | RunDefers settles =>
           trace p' = trace p ++ closing ++ [EvRun entry false]
           ∧ pending p' = pending p ++ [settles]
           ∧ trace (settle_pending p')
             = trace p' ++ rejection_reports (pending p) ++ rejection_reports [settles]
       end)
  ∧ (run entry = None -> _runCommand entry p = (emit (EvWarnNoRun entry) p, None))
  ∧ (forall idx, filtered p !! idx = Some entry ->
     _onItemClick idx p = _runCommand entry (set_selectedIndex (Z.of_nat idx) p))
  ∧ (dialog_open p = true -> 0 <= selectedIndex p ->
     filtered p !! Z.to_nat (selectedIndex p) = Some entry ->
     _onEnter p = _runCommand entry p).
Proof.
  intros closing. split_and!.
  - intros action Hrun p'. subst p'. unfold _runCommand, _runCommand_try.
    rewrite Hrun.
    assert (Hhide : dialog_open (hide p) = false
                    ∧ trace (hide p) = trace p ++ closing
                    ∧ commands (hide p) = commands p
                    ∧ pending (hide p) = pending p).
    { unfold hide, closing. destruct (dialog_open p) eqn:E; simpl.
      - done.
      - by rewrite app_nil_r. }
    destruct Hhide as (Ho & Ht & Hc & Hp). rewrite Ho.
    destruct (action false) as [|err|settles]; simpl.
    + rewrite Ho, Ht, Hc, Hp. by rewrite <- app_assoc.
    + rewrite Ho, Ht, Hc, Hp. by rewrite <- !app_assoc.
    + rewrite Ho, Ht, Hc, Hp. split_and!; try done.
      * by rewrite <- app_assoc.
      * destruct (trace_settle_pending
          (set_pending (pending p ++ [settles]) (emit (EvRun entry false) (hide p))))
          as [Hs _].
        rewrite Hs. cbn [trace pending set_pending emit].
        by rewrite Ht, rejection_reports_app.
  - intros Hrun. unfold _runCommand, _runCommand_try. by rewrite Hrun.
  - intros idx Hidx. unfold _onItemClick. by rewrite Hidx.
  - intros Hopen Hsel Hidx. unfold _onEnter. rewrite Hopen. simpl.
    case_bool_decide as He.
    + apply lookup_lt_Some in Hidx. lia.
    + destruct (Z.ltb_spec (selectedIndex p) 0); [lia|]. by rewrite Hidx.
Qed.

(** An action that returns a promise which rejects later: when
    [_runCommand] returns the dialog is closed and the action has run,
    and the rejection is reported once the promise has settled. *)
Lemma runCommand_hides_then_runs_witness :
  let entry := runnable "Close Tab" (RunDefers (Rejects (js "no tab"))) in
  let p := palette_with default_options [entry] 0 in
  let p' := (_runCommand entry p).1 in
  run entry = Some (fun _ => RunDefers (Rejects (js "no tab")))
  ∧ trace p' = [EvDialogClose; EvRun entry false]
  ∧ trace (settle_pending p')
    = [EvDialogClose; EvRun entry false; EvErrorCommand (js "no tab")].
Proof.
  intros entry p p'.
  assert (Hrun : run entry = Some (fun _ => RunDefers (Rejects (js "no tab"))))
    by reflexivity.
  split; [exact Hrun|].
  destruct (proj1 (runCommand_hides_then_runs entry p) _ Hrun)
    as (_ & _ & _ & Ht & _ & Hs).
  split; [exact Ht | exact Hs].
Defined.

(** ** [setCommands] keeps a copy *)

Section SetCommands.
Context `{Host}.

Lemma setCommands_in_store_commands (arg : RefValue) (p : Palette)
    (h : gmap nat (list Entry)) :
  let '(r, h') := setCommands_in_store arg p h in
  (commands_at r ∉ dom h)
  ∧ h' !! commands_at r = Some (commands (setCommands (deref h arg) p))
  ∧ (forall a, a ∈ dom h -> h' !! a = h !! a).
Proof.
  unfold setCommands_in_store, alloc. simpl.
  set (c := fresh (dom h)).
  assert (Hc : c ∉ dom h) by apply is_fresh.
  set (h2 := match initialSortFunc (options p) with
             | Some f => alter (sort f) c (<[c := sliced h arg]> h)
             | None => <[c := sliced h arg]> h
             end).
  assert (Hh2 : h2 !! c = Some (initially_sorted (options p) (sliced h arg))).
  { unfold h2, initially_sorted. destruct (initialSortFunc (options p)).
    - by rewrite lookup_alter_eq, lookup_insert_eq.
    - by rewrite lookup_insert_eq. }
  assert (Hother : forall a, a ≠ c -> h2 !! a = h !! a).
  { intros a Ha. unfold h2. destruct (initialSortFunc (options p)).
    - rewrite lookup_alter_ne by done. by rewrite lookup_insert_ne.
    - by rewrite lookup_insert_ne. }
  assert (Hdom : c ∈ dom h2) by (apply elem_of_dom; by rewrite Hh2).
  set (f := fresh (dom h2)).
  assert (Hf : f ∉ dom h2) by apply is_fresh.
  assert (Hfc : f ≠ c) by (intros ->; done).
  split; [exact Hc|]. split.
  - rewrite lookup_insert_ne by done. rewrite Hh2. f_equal.
    destruct arg; simpl sliced; simpl deref;
      unfold setCommands, initially_sorted;
      destruct (initialSortFunc (options p)); reflexivity.
  - intros a Ha.
    assert (a ≠ c) by (intros ->; done).
    assert (a ≠ f).
    { intros ->. apply Hf. apply elem_of_dom. rewrite Hother by done.
      by apply elem_of_dom. }
    rewrite lookup_insert_ne by done. by apply Hother.
Qed.

(** C10. For an argument that is not an array, [setCommands] leaves
    [commands] empty (and, being a function of the model, returns).  For
    an array it stores a copy: [commands] is a new array with the
    caller's entries (sorted by [initialSortFunc] when one is configured),
    the caller's array is left as it was, and whatever the caller writes
    to its array afterwards, [commands] holds the same entries. *)
Theorem setCommands_copies (p : Palette) :
  (forall v, not_array v -> commands (setCommands v p) = [])
  ∧ (forall l, commands (setCommands (VArray l) p) = initially_sorted (options p) l)
  ∧ (forall (h : gmap nat (list Entry)) a xs, h !! a = Some xs ->
     let r := (setCommands_in_store (RArray a) p h).1 in
     let h' := (setCommands_in_store (RArray a) p h).2 in
     commands_at r ≠ a
     ∧ h' !! commands_at r = Some (commands (setCommands (VArray xs) p))
     ∧ h' !! a = Some xs
     ∧ forall ys, (<[a := ys]> h') !! commands_at r
                  = Some (commands (setCommands (VArray xs) p))).
Proof.
  split_and!.
  - intros v Hv. unfold setCommands.
    destruct v; try done; destruct (initialSortFunc (options p)); reflexivity.
  - intros l. unfold setCommands, initially_sorted.
    destruct (initialSortFunc (options p)); reflexivity.
  - intros h a xs Ha r h'. subst r h'.
    pose proof (setCommands_in_store_commands (RArray a) p h) as Hst.
    destruct (setCommands_in_store (RArray a) p h) as [r h'].
    destruct Hst as (Hfresh & Hcmd & Hkeep). simpl in *. rewrite Ha in Hcmd.
    assert (Hdom : a ∈ dom h) by (apply elem_of_dom; by rewrite Ha).
    assert (Hne : commands_at r ≠ a) by (intros Heq; by rewrite Heq in Hfresh).
    split_and!.
    + exact Hne.
    + exact Hcmd.
    + by rewrite Hkeep.
    + intros ys. by rewrite lookup_insert_ne.
Qed.

End SetCommands.

(** A caller hands over its array of two commands and then empties it:
    the palette still has both. *)
Lemma setCommands_copies_witness :
  let xs := [titled "Open Tab"; titled "Close Tab"] in
  let h : gmap nat (list Entry) := {[ 0%nat := xs ]} in
  let p := new_Palette default_options in
  let r := (setCommands_in_store (H := ascii_host) (RArray 0) p h).1 in
  let h' := (setCommands_in_store (H := ascii_host) (RArray 0) p h).2 in
  h !! 0%nat = Some xs
  ∧ (<[0%nat := []]> h') !! commands_at r = Some xs.
Proof.
  intros xs h p r h'.
  assert (Hh : h !! 0%nat = Some xs) by reflexivity.
  split; [exact Hh|].
  exact (proj2 (proj2 (proj2
    (proj2 (proj2 (setCommands_copies (H := ascii_host) p)) h 0%nat xs Hh))) []).
Defined.

(** ** More about ranking *)

(** A comparator that never contradicts a key sorts by that key,
    however it orders equal keys. *)
Lemma sort_by_key {A} (cmp : A -> A -> Z) (key : A -> Z) (l : list A) :
  (forall a b, cmp a b <= 0 -> key b <= key a) ->
  (forall a b, 0 < cmp a b -> key a <= key b) ->
  StronglySorted (fun a b => key b <= key a) (sort cmp l).
Proof.
  intros Hle Hgt. induction l as [|x l IH]; simpl; [constructor|].
  fold (sort cmp l). revert IH. generalize (sort cmp l). clear l.
  induction 1 as [|y l Hl IH Hy]; simpl.
  - repeat constructor.
  - destruct (Z.leb_spec (cmp x y) 0) as [Hxy | Hxy].
    + constructor; [by constructor|]. constructor; [by apply Hle|].
      eapply Forall_impl; [exact Hy|]. intros z Hz. simpl in Hz.
      specialize (Hle _ _ Hxy). lia.
    + constructor; [exact IH|].
      rewrite (sort_insert_perm cmp x l). constructor; [by apply Hgt | done].
Qed.

Lemma StronglySorted_lookup {A} (R : A -> A -> Prop) (l : list A) i j a b :
  StronglySorted R l -> l !! i = Some a -> l !! j = Some b -> (i < j)%nat -> R a b.
Proof.
  intros Hs. revert i j. induction Hs as [|x l Hl IH Hx]; intros i j Hi Hj Hij.
  - done.
  - destruct j as [|j]; [lia|]. destruct i as [|i]; simpl in *.
    + injection Hi as <-. rewrite Forall_forall in Hx. apply Hx.
      by eapply list_elem_of_lookup_2.
    + apply (IH i j); [done | done | lia].
Qed.

Section Ranking.
Context `{Host}.

Lemma filtered_when_filtering p :
  filtering p ->
  filtered (_onQueryChange p)
  = map fst (sort compare_scored
      (List.filter (fun x : Entry * Z => 0 <? x.2)
         (map (fun cmd => (cmd, score (options p) (toLowerCase (trim (input_value p))) cmd))
            (commands p)))).
Proof.
  intros [Hq Hmin]. unfold _onQueryChange. simpl.
  destruct (Z.leb_spec (minQueryLength (options p))
              (Z.of_nat (length (trim (input_value p))))); [|lia].
  unfold _filterCommands, str_eqb. by rewrite bool_decide_eq_false_2.
Qed.

Lemma score_range opts query cmd :
  (exact_match query cmd -> 225 <= score opts query cmd)
  ∧ (¬ exact_match query cmd -> score opts query cmd <= 165)
  ∧ 0 <= score opts query cmd <= 265.
Proof.
  unfold exact_match, score, str_eqb.
  split_and!.
  - intros Heq. rewrite bool_decide_eq_true_2 by done.
    assert (Hs : startsWith (toLowerCase (title cmd)) query = true)
      by (apply startsWith_prefix; by rewrite Heq).
    assert (Hi : includes (toLowerCase (title cmd)) query = true).
    { apply includes_substring. exists [], []. by rewrite Heq, app_nil_r. }
    rewrite Hs, Hi. repeat case_match; lia.
  - intros Hne. rewrite bool_decide_eq_false_2 by done. repeat case_match; lia.
  - repeat case_match; lia.
  - repeat case_match; lia.
Qed.

Lemma filtered_by_score p :
  filtering p ->
  StronglySorted
    (fun a b => score (options p) (toLowerCase (trim (input_value p))) b
                <= score (options p) (toLowerCase (trim (input_value p))) a)
    (filtered (_onQueryChange p)).
Proof.
  intros Hf. rewrite (filtered_when_filtering p Hf).
  set (query := toLowerCase (trim (input_value p))).
  set (scored := List.filter _ _).
  assert (Hcarry : Forall (fun x : Entry * Z => x.2 = score (options p) query x.1)
                     (sort compare_scored scored)).
  { rewrite sort_perm. apply scored_carry_score. }
  assert (Hs : StronglySorted (fun a b : Entry * Z => b.2 <= a.2)
                 (sort compare_scored scored)).
  { apply sort_by_key; intros a b; unfold compare_scored;
      destruct (Z.eqb_spec (b.2 - a.2) 0); lia. }
  revert Hcarry Hs. generalize (sort compare_scored scored). intros l Hcarry Hs.
  induction Hs as [|x l Hl IH Hx]; simpl; [constructor|].
  apply Forall_cons in Hcarry as [Hx2 Hcarry]. constructor; [by apply IH|].
  apply Forall_map, Forall_forall. intros y Hy.
  rewrite Forall_forall in Hx, Hcarry. specialize (Hx y Hy). specialize (Hcarry y Hy).
  simpl. by rewrite <- Hx2, <- Hcarry.
Qed.

(** X1. While a query is filtered on, [filtered] is in descending order
    of score whatever the host's [localeCompare] answers: a row never
    scores higher than a row above it. *)
Theorem filtered_descending_for_any_host (p : Palette) (i j : nat) (a b : Entry) :
  filtering p ->
  filtered (_onQueryChange p) !! i = Some a ->
  filtered (_onQueryChange p) !! j = Some b ->
  (i < j)%nat ->
  score (options p) (toLowerCase (trim (input_value p))) b
  <= score (options p) (toLowerCase (trim (input_value p))) a.
Proof.
  intros Hf Hi Hj Hij.
  exact (StronglySorted_lookup _ _ i j a b (filtered_by_score p Hf) Hi Hj Hij).
Qed.

(** X2. A command whose title is the query, case aside, scores at least
    225 and any other at most 165, so in [filtered] every exact match
    stands above every command that is not one. *)
Theorem exact_title_match_ranks_first (p : Palette) (i j : nat) (a b : Entry) :
  filtering p ->
  filtered (_onQueryChange p) !! i = Some a ->
  filtered (_onQueryChange p) !! j = Some b ->
  exact_match (toLowerCase (trim (input_value p))) a ->
  ¬ exact_match (toLowerCase (trim (input_value p))) b ->
  (i < j)%nat
  ∧ 225 <= score (options p) (toLowerCase (trim (input_value p))) a
  ∧ score (options p) (toLowerCase (trim (input_value p))) b <= 165.
Proof.
  intros Hf Hi Hj Ha Hb.
  set (query := toLowerCase (trim (input_value p))) in *.
  destruct (score_range (options p) query a) as (Hhigh & _ & _).
  destruct (score_range (options p) query b) as (_ & Hlow & _).
  specialize (Hhigh Ha). specialize (Hlow Hb).
  split; [|done].
  destruct (Nat.lt_trichotomy i j) as [Hlt | [-> | Hgt]]; [done | |].
  - rewrite Hi in Hj. injection Hj as ->. done.
  - pose proof (StronglySorted_lookup _ _ j i b a (filtered_by_score p Hf) Hj Hi Hgt)
      as Hord. simpl in Hord. fold query in Hord. lia.
Qed.

End Ranking.

Lemma filtered_descending_for_any_host_witness :
  let p := set_input_value (js "tab")
             (palette_with default_options
                [titled "New Window"; titled "Tab"; titled "Open Tab"] 0) in
  filtering p
  ∧ score (H := ascii_host) (options p) (js "tab") (titled "Open Tab")
    <= score (H := ascii_host) (options p) (js "tab") (titled "Tab").
Proof.
  intros p.
  assert (Hf : filtering p) by (split; [discriminate | vm_compute; discriminate]).
  split; [exact Hf|].
  exact (filtered_descending_for_any_host (H := ascii_host) p 0 1
           (titled "Tab") (titled "Open Tab") Hf eq_refl eq_refl (Nat.lt_0_succ 0)).
Defined.

Lemma exact_title_match_ranks_first_witness :
  let p := set_input_value (js "tab")
             (palette_with default_options
                [titled "New Window"; titled "Open Tab"; titled "Tab"] 0) in
  filtering p
  ∧ exact_match (H := ascii_host) (js "tab") (titled "Tab")
  ∧ ¬ exact_match (H := ascii_host) (js "tab") (titled "Open Tab")
  ∧ (0 < 1)%nat.
Proof.
  intros p.
  assert (Hf : filtering p) by (split; [discriminate | vm_compute; discriminate]).
  assert (Ha : exact_match (H := ascii_host) (js "tab") (titled "Tab")) by reflexivity.
  assert (Hb : ¬ exact_match (H := ascii_host) (js "tab") (titled "Open Tab"))
    by discriminate.
  split; [exact Hf|]. split; [exact Ha|]. split; [exact Hb|].
  exact (proj1 (exact_title_match_ranks_first (H := ascii_host) p 0 1
           (titled "Tab") (titled "Open Tab") Hf eq_refl eq_refl Ha Hb)).
Defined.

(** ** Prefix, substring, subsequence *)

Lemma substring_sublist (needle s : jsstring) : substring needle s -> sublist needle s.
Proof.
  intros (l1 & l2 & ->). apply sublist_inserts_l, sublist_inserts_r. reflexivity.
Qed.

(** X3. The three ways a query can match a text are nested: a query the
    text starts with is contained in it, a query contained in the text
    matches it fuzzily, and a query that matches fuzzily is not longer
    than the text. *)
Theorem prefix_substring_fuzzy_nested (query text : jsstring) :
  (startsWith text query = true -> includes text query = true)
  ∧ (includes text query = true -> _fuzzyMatch query text = true)
  ∧ (_fuzzyMatch query text = true -> (length query <= length text)%nat).
Proof.
  split_and!.
  - rewrite startsWith_prefix, includes_substring. intros [k ->]. by exists [], k.
  - rewrite includes_substring, fuzzyMatch_sublist. apply substring_sublist.
  - rewrite fuzzyMatch_sublist. apply sublist_length.
Qed.

Lemma prefix_substring_fuzzy_nested_witness :
  startsWith (js "close tab") (js "close") = true
  ∧ includes (js "close tab") (js "close") = true
  ∧ _fuzzyMatch (js "close") (js "close tab") = true.
Proof.
  assert (Hs : startsWith (js "close tab") (js "close") = true) by reflexivity.
  pose proof (proj1 (prefix_substring_fuzzy_nested (js "close") (js "close tab")) Hs)
    as Hi.
  split; [exact Hs|]. split; [exact Hi|].
  exact (proj1 (proj2 (prefix_substring_fuzzy_nested (js "close") (js "close tab"))) Hi).
Defined.

(** ** Recomputing the view *)

Section Invariants.
Context `{Host}.

Lemma onQueryChange_eq p :
  _onQueryChange p
  = set_selectedIndex (clamp_selection (selectedIndex p) (length (query_results p)))
      (set_filtered (query_results p) p).
Proof. reflexivity. Qed.

Lemma query_results_frame i r p :
  query_results (set_selectedIndex i (set_filtered r p)) = query_results p.
Proof. reflexivity. Qed.

Lemma clamp_selection_idempotent sel n :
  clamp_selection (clamp_selection sel n) n = clamp_selection sel n.
Proof.
  unfold clamp_selection. cbv zeta.
  destruct (Z.ltb_spec (Z.min sel (Z.max 0 (Z.of_nat n - 1))) 0) as [Hs | Hs].
  - destruct (Z.ltb_spec (Z.min 0 (Z.max 0 (Z.of_nat n - 1))) 0); lia.
  - destruct (Z.ltb_spec (Z.min (Z.min sel (Z.max 0 (Z.of_nat n - 1)))
                            (Z.max 0 (Z.of_nat n - 1))) 0); lia.
Qed.

(** X4. [_onQueryChange] is idempotent: run again with the query, the
    commands and the options unchanged, it leaves the palette exactly as
    the first run left it. *)
Theorem onQueryChange_idempotent (p : Palette) :
  _onQueryChange (_onQueryChange p) = _onQueryChange p.
Proof.
  rewrite (onQueryChange_eq (_onQueryChange p)), (onQueryChange_eq p).
  rewrite query_results_frame. cbn [selectedIndex set_selectedIndex set_filtered].
  rewrite clamp_selection_idempotent. reflexivity.
Qed.

Lemma onQueryChange_within p : filtered (_onQueryChange p) ⊆+ commands p.
Proof.
  unfold _onQueryChange. simpl.
  destruct (minQueryLength (options p) <=? _); [|done].
  unfold _filterCommands. destruct (str_eqb _ []); [done|].
  rewrite (fmap_Permutation fst _ _ (sort_perm compare_scored _)).
  rewrite scored_positive_fst. apply sublist_submseteq, sublist_filter.
Qed.

Lemma onQueryChange_filtered_within p : filtered_within (_onQueryChange p).
Proof.
  unfold filtered_within. rewrite commands_onQueryChange. apply onQueryChange_within.
Qed.

Lemma setCommands_within v p : filtered_within (setCommands v p).
Proof.
  unfold setCommands.
  destruct (initialSortFunc (options p)); apply onQueryChange_filtered_within.
Qed.

Lemma exec_within o p : filtered_within p -> filtered_within (exec o p).
Proof.
  intros Hp. destruct o; unfold exec, _onInput, add, _moveSelection, remove;
    repeat (match goal with |- context [if ?b then _ else _] => destruct b end);
    repeat case_match;
    first [exact Hp | apply setCommands_within | apply onQueryChange_filtered_within].
Qed.

(** X5. [filtered] never holds an entry that [commands] does not hold:
    after every sequence of query changes, selection moves, [add],
    [remove] and [setCommands] on a new palette, the entries of [filtered]
    are entries of [commands], none more often than there, so [filtered]
    is never the longer list. *)
Theorem filtered_always_within_commands (opts : Options) (ops : list Op) :
  let p := exec_all ops (new_Palette opts) in
  filtered_within p
  ∧ (forall e, e ∈ filtered p -> e ∈ commands p)
  ∧ (length (filtered p) <= length (commands p))%nat.
Proof.
  intros p.
  assert (Hw : filtered_within p).
  { subst p.
    enough (Hgen : forall q, filtered_within q -> filtered_within (exec_all ops q)).
    { apply Hgen. unfold filtered_within. simpl. done. }
    induction ops as [|o ops IH]; intros q Hq; simpl; [done|].
    apply IH, exec_within, Hq. }
  split; [exact Hw|]. split.
  - intros e He. by eapply elem_of_submseteq.
  - by apply submseteq_length.
Qed.

End Invariants.

(** ** Ids stay unique *)

Lemma declared_ids_perm (l1 l2 : list Entry) :
  l1 ≡ₚ l2 -> declared_ids l1 ≡ₚ declared_ids l2.
Proof. intros Hp. unfold declared_ids. by rewrite Hp. Qed.

Lemma ids_unique_perm (l1 l2 : list Entry) :
  l1 ≡ₚ l2 -> ids_unique l1 -> ids_unique l2.
Proof. intros Hp. unfold ids_unique. by rewrite (declared_ids_perm _ _ Hp). Qed.

Lemma ids_unique_initially_sorted opts l :
  ids_unique l -> ids_unique (initially_sorted opts l).
Proof. apply ids_unique_perm. symmetry. apply initially_sorted_perm. Qed.

Lemma declared_ids_app (l1 l2 : list Entry) :
  declared_ids (l1 ++ l2) = declared_ids l1 ++ declared_ids l2.
Proof. unfold declared_ids. by rewrite map_app, filter_app. Qed.

Lemma sublist_filter_mono {A} (P : A -> Prop) `{!forall x, Decision (P x)}
    (l1 l2 : list A) :
  sublist l1 l2 -> sublist (filter P l1) (filter P l2).
Proof.
  induction 1 as [|x l1 l2 Hs IH|x l1 l2 Hs IH]; [done| |];
    rewrite ?filter_cons; destruct (decide (P x));
    auto using sublist_skip, sublist_cons.
Qed.

Lemma ids_unique_delete (l : list Entry) (i : nat) :
  ids_unique l -> ids_unique (delete i l).
Proof.
  unfold ids_unique, declared_ids. intros Hn.
  eapply sublist_NoDup; [exact Hn|].
  apply sublist_filter_mono, fmap_sublist, sublist_delete.
Qed.

Lemma first_with_id_cases (i0 : option jsstring) (l : list Entry) :
  (exists i, first_with_id i0 l i) ∨ (forall e, e ∈ l -> id e ≠ i0).
Proof.
  destruct (list_find (fun x => id x = i0) l) as [[i e]|] eqn:E.
  - left. exists i. apply list_find_Some in E as (He & Hid & Hfirst).
    split; [by exists e|]. intros j y Hy Hj. by apply (Hfirst j y).
  - right. apply list_find_None in E. rewrite Forall_forall in E. exact E.
Qed.

Section UniqueIds.
Context `{Host}.

Lemma add_ids_unique cmd p :
  ids_unique (commands p) -> ids_unique (commands (add cmd p)).
Proof.
  intros Hu.
  destruct (truthy_id (id cmd)) eqn:Ht.
  - destruct (first_with_id_cases (id cmd) (commands p)) as [[i Hi] | Hfresh].
    + rewrite (add_existing cmd p i Ht Hi), commands_setCommands.
      apply ids_unique_initially_sorted. unfold ids_unique, declared_ids in *.
      destruct Hi as [(e & He & Hid) _].
      change (map id (<[i:=cmd]> (commands p)))
        with (id <$> <[i:=cmd]> (commands p)).
      rewrite list_fmap_insert, list_insert_id; [exact Hu|].
      by rewrite list_lookup_fmap, He, <- Hid.
    + rewrite (add_fresh cmd p (or_intror Hfresh)), commands_setCommands.
      apply ids_unique_initially_sorted. unfold ids_unique in *.
      rewrite declared_ids_app. unfold declared_ids at 2. simpl.
      rewrite filter_cons, decide_True, filter_nil by done.
      apply NoDup_app. split; [exact Hu|]. split; [|apply NoDup_singleton].
      intros x Hx Hx'. apply list_elem_of_singleton in Hx'. subst x.
      unfold declared_ids in Hx. apply list_elem_of_filter in Hx as [_ Hx].
      apply list_elem_of_fmap in Hx as (e & He & Hin). by apply (Hfresh e).
  - rewrite (add_fresh cmd p (or_introl Ht)), commands_setCommands.
    apply ids_unique_initially_sorted. unfold ids_unique in *.
    rewrite declared_ids_app. unfold declared_ids at 2. simpl.
    rewrite filter_cons, decide_False, filter_nil by (by rewrite Ht).
    by rewrite app_nil_r.
Qed.

Lemma remove_cases identifier p :
  remove identifier p = p
  ∨ exists i, remove identifier p = setCommands (VArray (delete i (commands p))) p.
Proof.
  unfold remove. destruct identifier as [idx|s|e];
    repeat (match goal with |- context [if ?b then _ else _] => destruct b end);
    eauto.
Qed.

Lemma remove_ids_unique identifier p :
  ids_unique (commands p) -> ids_unique (commands (remove identifier p)).
Proof.
  intros Hu. destruct (remove_cases identifier p) as [-> | [i ->]]; [done|].
  rewrite commands_setCommands.
  by apply ids_unique_initially_sorted, ids_unique_delete.
Qed.

Lemma exec_ids_unique o p :
  not_setCommands o -> ids_unique (commands p) -> ids_unique (commands (exec o p)).
Proof.
  intros Ho Hu. destruct o as [value|i|delta|cmd|identifier|l]; simpl.
  - exact Hu.
  - exact Hu.
  - unfold _moveSelection. by case_bool_decide.
  - by apply add_ids_unique.
  - by apply remove_ids_unique.
  - destruct Ho.
Qed.

(** X6. [add] and [remove] keep ids unique: when no two commands declare
    the same non-empty id, none do after [add] or [remove], so a palette
    that is filled by [add] alone (with removals, query changes and
    selection moves in between) never holds two entries with one id. *)
Theorem ids_stay_unique (opts : Options) (ops : list Op) (cmd : Entry)
    (identifier : Identifier) (p : Palette) :
  (ids_unique (commands p) -> ids_unique (commands (add cmd p)))
  ∧ (ids_unique (commands p) -> ids_unique (commands (remove identifier p)))
  ∧ (Forall not_setCommands ops ->
     ids_unique (commands (exec_all ops (new_Palette opts)))).
Proof.
  split_and!.
  - apply add_ids_unique.
  - apply remove_ids_unique.
  - intros Hops.
    enough (Hgen : forall q, ids_unique (commands q) ->
                             ids_unique (commands (exec_all ops q))).
    { apply Hgen. unfold ids_unique. simpl. constructor. }
    induction Hops as [|o ops Ho Hops IH]; intros q Hq; simpl; [done|].
    by apply IH, exec_ids_unique.
Qed.

End UniqueIds.

Lemma ids_stay_unique_witness :
  let ops := [OpAdd (domain_entry "a" "a.example" 5);
              OpAdd (domain_entry "b" "b.example" 3);
              OpAdd (domain_entry "a" "a.example" 7);
              OpRemove (ByIndex 0)] in
  Forall not_setCommands ops
  ∧ ids_unique (commands (exec_all (H := ascii_host) ops (new_Palette default_options))).
Proof.
  intros ops.
  assert (Hops : Forall not_setCommands ops) by (repeat constructor).
  split; [exact Hops|].
  exact (proj2 (proj2 (ids_stay_unique (H := ascii_host) default_options ops
           (titled "x") (ByIndex 0) (new_Palette default_options))) Hops).
Defined.

(** ** Round trips *)

Section RoundTrips.
Context `{Host}.

Lemma options_setCommands v p : options (setCommands v p) = options p.
Proof. unfold setCommands. by destruct (initialSortFunc (options p)). Qed.

Lemma options_add cmd p : options (add cmd p) = options p.
Proof. apply options_setCommands. Qed.

(** X7. Adding an entry under a non-empty id that no command has, and
    removing it by that id, gives back the commands there were: the same
    entries, and without [initialSortFunc] the same list. *)
Theorem add_then_remove_by_id (cmd : Entry) (s : jsstring) (p : Palette) :
  id cmd = Some s -> s ≠ [] ->
  (forall e, e ∈ commands p -> id e ≠ Some s) ->
  commands (remove (ById s) (add cmd p)) ≡ₚ commands p
  ∧ (initialSortFunc (options p) = None ->
     commands (remove (ById s) (add cmd p)) = commands p).
Proof.
  intros Hid Hs Hfresh.
  assert (Ht : truthy_id (id cmd) = true) by (rewrite Hid; by destruct s).
  assert (Hadd : commands (add cmd p) = initially_sorted (options p) (commands p ++ [cmd])).
  { rewrite add_fresh, commands_setCommands; [done|]. right. by rewrite Hid. }
  assert (Hperm : commands (add cmd p) ≡ₚ cmd :: commands p).
  { rewrite Hadd, initially_sorted_perm. by rewrite Permutation_app_comm. }
  destruct (first_with_id_cases (Some s) (commands (add cmd p))) as [[i Hi] | Hno].
  - assert (Hrm : commands (remove (ById s) (add cmd p))
                  = initially_sorted (options p) (delete i (commands (add cmd p)))).
    { rewrite (remove_by_id (add cmd p) s i (ById s)) by done.
      by rewrite commands_setCommands, options_add. }
    destruct Hi as [(e & He & Hide) Hfirst].
    assert (e = cmd) as ->.
    { assert (Hin : e ∈ cmd :: commands p).
      { rewrite <- Hperm. by eapply list_elem_of_lookup_2. }
      apply elem_of_cons in Hin as [-> | Hin]; [done|]. by destruct (Hfresh e Hin). }
    split.
    + rewrite Hrm, initially_sorted_perm.
      apply (Permutation_cons_inv (a := cmd)).
      rewrite <- Hperm. symmetry. by apply delete_Permutation.
    + intros Hnone. rewrite Hrm. unfold initially_sorted in *. rewrite Hnone in *.
      rewrite Hadd in He, Hfirst |- *.
      assert (i = length (commands p)) as ->.
      { destruct (Nat.lt_trichotomy i (length (commands p))) as [Hlt | [-> | Hgt]].
        - rewrite lookup_app_l in He by done.
          destruct (Hfresh cmd); [by eapply list_elem_of_lookup_2 | done].
        - done.
        - apply lookup_lt_Some in He. rewrite length_app in He. simpl in He. lia. }
      rewrite delete_middle. apply app_nil_r.
  - destruct (Hno cmd); [|done]. rewrite Hperm. apply list_elem_of_here.
Qed.

Lemma moveSelection_empty delta p : filtered p = [] -> _moveSelection delta p = p.
Proof. intros He. unfold _moveSelection. by rewrite He. Qed.

Lemma moveSelection_nonempty delta p :
  filtered p ≠ [] ->
  _moveSelection delta p
  = _setSelectedIndex
      (Z.rem (selectedIndex p + delta + Z.of_nat (length (filtered p)))
         (Z.of_nat (length (filtered p)))) p.
Proof.
  intros Hne. unfold _moveSelection. case_bool_decide as He; [|done].
  by destruct (filtered p).
Qed.

Lemma moveSelection_in_range_eq delta p :
  filtered p ≠ [] -> 0 <= selectedIndex p + delta + Z.of_nat (length (filtered p)) ->
  _moveSelection delta p
  = set_selectedIndex
      ((selectedIndex p + delta) mod Z.of_nat (length (filtered p))) p.
Proof.
  intros Hne Hd. rewrite moveSelection_nonempty by done. unfold _setSelectedIndex.
  assert (0 < Z.of_nat (length (filtered p)))
    by (destruct (filtered p); [done | simpl; lia]).
  rewrite Z.rem_mod_nonneg by lia.
  replace (selectedIndex p + delta + Z.of_nat (length (filtered p)))
    with (selectedIndex p + delta + 1 * Z.of_nat (length (filtered p))) by lia.
  rewrite Z.mod_add by lia.
  pose proof (Z.mod_pos_bound (selectedIndex p + delta) (Z.of_nat (length (filtered p)))).
  f_equal. lia.
Qed.

Lemma set_selectedIndex_same p : set_selectedIndex (selectedIndex p) p = p.
Proof. by destruct p. Qed.

Lemma set_selectedIndex_twice i j p :
  set_selectedIndex i (set_selectedIndex j p) = set_selectedIndex i p.
Proof. reflexivity. Qed.

Lemma moveSelection_steps (k : nat) (p : Palette) :
  filtered p ≠ [] -> 0 <= selectedIndex p ->
  Nat.iter k (_moveSelection 1) p
  = set_selectedIndex
      (if bool_decide (k = 0%nat) then selectedIndex p
       else (selectedIndex p + Z.of_nat k) mod Z.of_nat (length (filtered p))) p.
Proof.
  intros Hne Hsel.
  assert (Hlen : 0 < Z.of_nat (length (filtered p)))
    by (destruct (filtered p); [done | simpl; lia]).
  induction k as [|k IH].
  - simpl. by rewrite set_selectedIndex_same.
  - rewrite Nat.iter_succ, IH. rewrite (bool_decide_eq_false_2 (S k = 0%nat)) by lia.
    set (s := if bool_decide (k = 0%nat) then _ else _).
    assert (Hs : 0 <= s ∧ (s + 1) mod Z.of_nat (length (filtered p))
                          = (selectedIndex p + Z.of_nat (S k))
                              mod Z.of_nat (length (filtered p))).
    { subst s. case_bool_decide as Hk.
      - subst k. split; [done|]. f_equal.
      - pose proof (Z.mod_pos_bound (selectedIndex p + Z.of_nat k)
                      (Z.of_nat (length (filtered p))) Hlen).
        split; [lia|].
        rewrite Zplus_mod_idemp_l. f_equal. lia. }
    destruct Hs as [Hs0 Hs1].
    rewrite moveSelection_in_range_eq; cbn [filtered set_selectedIndex selectedIndex];
      [|done|lia].
    by rewrite Hs1.
Qed.

(** X8. On a palette whose selection is in range, a step down and a step
    up cancel, in either order, and as many steps down as there are rows
    bring the selection back to where it was. *)
Theorem moveSelection_round_trip (p : Palette) :
  selection_in_range p ->
  _moveSelection (-1) (_moveSelection 1 p) = p
  ∧ _moveSelection 1 (_moveSelection (-1) p) = p
  ∧ Nat.iter (length (filtered p)) (_moveSelection 1) p = p.
Proof.
  unfold selection_in_range. case_bool_decide as He.
  - intros _. rewrite !(moveSelection_empty _ p He), He. done.
  - intros Hr.
    assert (Hlen : 0 < Z.of_nat (length (filtered p)))
      by (destruct (filtered p); [done | simpl; lia]).
    set (n := Z.of_nat (length (filtered p))) in *.
    assert (Hback : forall d, d = 1 ∨ d = -1 ->
      _moveSelection (- d) (_moveSelection d p) = p).
    { intros d Hd.
      rewrite (moveSelection_in_range_eq d p) by (done || (fold n; lia)).
      rewrite moveSelection_in_range_eq; cbn [filtered set_selectedIndex selectedIndex];
        fold n; [|done|pose proof (Z.mod_pos_bound (selectedIndex p + d) n); lia].
      rewrite set_selectedIndex_twice. rewrite Zplus_mod_idemp_l.
      replace (selectedIndex p + d + - d) with (selectedIndex p) by lia.
      rewrite Z.mod_small by lia. apply set_selectedIndex_same. }
    split_and!.
    + apply (Hback 1). by left.
    + apply (Hback (-1)). by right.
    + rewrite moveSelection_steps by (done || lia).
      case_bool_decide as Hk; [apply set_selectedIndex_same|]. fold n.
      replace (selectedIndex p + n) with (selectedIndex p + 1 * n) by lia.
      rewrite Z.mod_add, Z.mod_small by lia. apply set_selectedIndex_same.
Qed.

End RoundTrips.

Lemma add_then_remove_by_id_witness :
  let p := palette_with default_options
             [titled "Open Tab"; domain_entry "a" "a.example" 5] 0 in
  let cmd := domain_entry "b" "b.example" 3 in
  id cmd = Some (js "b")
  ∧ js "b" ≠ []
  ∧ commands (remove (H := ascii_host) (ById (js "b")) (add (H := ascii_host) cmd p))
    = commands p.
Proof.
  intros p cmd.
  assert (Hid : id cmd = Some (js "b")) by reflexivity.
  assert (Hs : js "b" ≠ []) by discriminate.
  assert (Hfresh : forall e, e ∈ commands p -> id e ≠ Some (js "b")).
  { intros e He. simpl in He. rewrite !elem_of_cons, elem_of_nil in He.
    destruct He as [-> | [-> | []]]; discriminate. }
  split; [exact Hid|]. split; [exact Hs|].
  exact (proj2 (add_then_remove_by_id (H := ascii_host) cmd (js "b") p Hid Hs Hfresh)
           eq_refl).
Defined.

Lemma moveSelection_round_trip_witness :
  let p := palette_with default_options
             [titled "Open Tab"; titled "Close Tab"; titled "New Window"] 2 in
  selection_in_range p
  ∧ _moveSelection (-1) (_moveSelection 1 p) = p.
Proof.
  intros p.
  assert (Hr : selection_in_range p) by (vm_compute; split; discriminate).
  split; [exact Hr|].
  exact (proj1 (moveSelection_round_trip p Hr)).
Defined.

(** ** Showing the palette *)

Section Show.
Context `{Host}.

Lemma setCommands_surroundings v p :
  same_surroundings p (setCommands v p) ∧ ranOnce (setCommands v p) = ranOnce p.
Proof.
  unfold setCommands, same_surroundings.
  by destruct (initialSortFunc (options p)).
Qed.

Lemma populate_resolves populateFunc p :
  always_resolves populateFunc ->
  exists v, populate populateFunc p = Normal (setCommands v p).
Proof.
  intros Hres. destruct (Hres p) as [v Hv]. exists v. unfold populate. by rewrite Hv.
Qed.

Lemma show_first_stage populateFunc p :
  always_resolves populateFunc ->
  exists p2,
    (if negb (ranOnce p) then
       if has_behavior OnFirstShow (set_ranOnce true p)
       then populate populateFunc (set_ranOnce true p)
       else Normal (set_ranOnce true p)
     else Normal p) = Normal p2
    ∧ same_surroundings p p2 ∧ ranOnce p2 = true.
Proof.
  intros Hres. destruct (ranOnce p) eqn:Er; simpl.
  - exists p. by rewrite Er.
  - destruct (has_behavior OnFirstShow (set_ranOnce true p)).
    + destruct (populate_resolves populateFunc (set_ranOnce true p) Hres) as [v ->].
      exists (setCommands v (set_ranOnce true p)). split; [done|].
      destruct (setCommands_surroundings v (set_ranOnce true p)) as [Hs Hr].
      by rewrite Hr.
    + by exists (set_ranOnce true p).
Qed.

Lemma show_second_stage populateFunc p :
  always_resolves populateFunc ->
  exists p3,
    (if has_behavior OnShow p then populate populateFunc p else Normal p) = Normal p3
    ∧ same_surroundings p p3 ∧ ranOnce p3 = ranOnce p.
Proof.
  intros Hres. destruct (has_behavior OnShow p).
  - destruct (populate_resolves populateFunc p Hres) as [v ->].
    exists (setCommands v p). split; [done|]. apply setCommands_surroundings.
  - by exists p.
Qed.

Lemma show_admitted_eq populateFunc doc_has_body currentHostname prefill p :
  show_admitted doc_has_body currentHostname p ->
  show populateFunc doc_has_body currentHostname prefill p
  = andThen
      (if negb (ranOnce p) then
         if has_behavior OnFirstShow (set_ranOnce true p)
         then populate populateFunc (set_ranOnce true p)
         else Normal (set_ranOnce true p)
       else Normal p)
      (fun p2 =>
         andThen
           (if has_behavior OnShow p2 then populate populateFunc p2 else Normal p2)
           (fun p3 =>
              Normal (_onQueryChange
                        (set_input_value prefill
                           (emit EvShowModal (set_dialog_open true p3)))))).
Proof.
  intros [Hbody Hallow]. unfold show. rewrite Hbody. simpl.
  destruct (hostAllowList (options p)) as [l|] eqn:El; [|done].
  by rewrite bool_decide_eq_true_2 by (by apply Hallow).
Qed.

(** X9. A [show] that is not refused and whose entry source answers
    opens the dialog once, puts the prefill in the input and marks the
    palette as shown; the view it leaves is consistent: [filtered] is
    drawn from [commands] and the selection is in range.  A refused
    [show] (no body, or a host outside the allow-list) leaves the palette
    as it is and does not ask the entry source. *)
Theorem show_opens_consistent_view
    (populateFunc : Palette -> PopulateResult)
    (doc_has_body : bool) (currentHostname prefill : jsstring) (p : Palette) :
  always_resolves populateFunc ->
  (show_admitted doc_has_body currentHostname p ->
   exists p',
     show populateFunc doc_has_body currentHostname prefill p = Normal p'
     ∧ dialog_open p' = true ∧ input_value p' = prefill ∧ ranOnce p' = true
     ∧ trace p' = trace p ++ [EvShowModal]
     ∧ options p' = options p
     ∧ selection_in_range p' ∧ filtered_within p')
  ∧ (¬ show_admitted doc_has_body currentHostname p ->
     forall other, show other doc_has_body currentHostname prefill p = Normal p).
Proof.
  intros Hres. split.
  - intros Hadm. rewrite (show_admitted_eq _ _ _ _ _ Hadm).
    destruct (show_first_stage populateFunc p Hres) as (p2 & -> & Hs2 & Hr2).
    cbn [andThen].
    destruct (show_second_stage populateFunc p2 Hres) as (p3 & -> & Hs3 & Hr3).
    cbn [andThen]. eexists. split; [reflexivity|].
    destruct Hs2 as (Ho2 & Ht2 & _). destruct Hs3 as (Ho3 & Ht3 & _).
    split_and!; try reflexivity.
    + cbn. congruence.
    + cbn. by rewrite Ht3, Ht2.
    + cbn. congruence.
    + apply onQueryChange_in_range.
    + apply onQueryChange_filtered_within.
  - intros Hnot other. unfold show.
    destruct doc_has_body; [|done]. simpl.
    destruct (hostAllowList (options p)) as [l|] eqn:El.
    + case_bool_decide as Hin; [|done].
      destruct Hnot. split; [done|]. intros l' Hl'. congruence.
    + destruct Hnot. split; [done|]. intros l' Hl'. congruence.
Qed.

(** X10. The first-show population happens once: on a palette that has
    been shown, with [OnShow] not configured, [show] does not ask the
    entry source (whatever the source, the outcome is the same), cannot
    fail, and leaves [commands] as they are. *)
Theorem shown_palette_is_not_repopulated
    (populateFunc other : Palette -> PopulateResult)
    (doc_has_body : bool) (currentHostname prefill : jsstring) (p : Palette) :
  ranOnce p = true ->
  OnShow ∉ populateBehavior (options p) ->
  show populateFunc doc_has_body currentHostname prefill p
  = show other doc_has_body currentHostname prefill p
  ∧ (exists p', show populateFunc doc_has_body currentHostname prefill p = Normal p'
                ∧ commands p' = commands p).
Proof.
  intros Hran Hno. unfold show. rewrite Hran. simpl.
  assert (Hb : has_behavior OnShow p = false)
    by (unfold has_behavior; by rewrite bool_decide_eq_false_2).
  rewrite Hb.
  destruct (negb doc_has_body); [eauto|].
  destruct (match hostAllowList (options p) with
            | Some l => negb (bool_decide (currentHostname ∈ l))
            | None => false
            end); [eauto|].
  simpl. eauto.
Qed.

End Show.

Lemma show_opens_consistent_view_witness :
  let source := constant_source [titled "Open Tab"; titled "Close Tab"] in
  always_resolves source
  ∧ show_admitted true [] unpopulated
  ∧ exists p',
      show (H := ascii_host) source true [] (js "tab") unpopulated = Normal p'
      ∧ dialog_open p' = true.
Proof.
  intros source.
  assert (Hres : always_resolves source) by (intros q; by eexists).
  assert (Hadm : show_admitted true [] unpopulated) by (split; [done | discriminate]).
  split; [exact Hres|]. split; [exact Hadm|].
  destruct (proj1 (show_opens_consistent_view (H := ascii_host) source true []
                     (js "tab") unpopulated Hres) Hadm) as (p' & Hp' & Hopen & _).
  exists p'. split; [exact Hp' | exact Hopen].
Defined.

Lemma shown_palette_is_not_repopulated_witness :
  let p := palette_with default_options [titled "Open Tab"] 0 in
  ranOnce p = true
  ∧ (OnShow ∉ populateBehavior (options p))
  ∧ show (H := ascii_host) (failing_source (js "down")) true [] [] p
    = show (H := ascii_host) (constant_source []) true [] [] p.
Proof.
  intros p.
  assert (Hran : ranOnce p = true) by reflexivity.
  assert (Hno : OnShow ∉ populateBehavior (options p)).
  { simpl. rewrite !elem_of_cons, elem_of_nil. intros [? | []]. discriminate. }
  split; [exact Hran|]. split; [exact Hno|].
  exact (proj1 (shown_palette_is_not_repopulated (H := ascii_host)
           (failing_source (js "down")) (constant_source []) true [] [] p Hran Hno)).
Defined.

(** ** The initial sort function *)

(** Inserting into a list does not disturb the elements of one key, when
    the comparator puts higher keys first. *)
Lemma sort_insert_stable {A} (cmp : A -> A -> Z) (key : A -> Z) (n : Z) x l :
  (forall a b, cmp a b <= 0 <-> key b <= key a) ->
  filter (fun y => key y = n) (sort_insert cmp x l)
  = filter (fun y => key y = n) (x :: l).
Proof.
  intros Hcmp. induction l as [|y l IH]; simpl; [done|].
  destruct (Z.leb_spec (cmp x y) 0) as [Hxy | Hxy]; [done|].
  assert (key x < key y) by (destruct (Hcmp x y); lia).
  rewrite (filter_cons _ y), IH, !filter_cons.
  destruct (decide (key y = n)), (decide (key x = n)); try done. lia.
Qed.

Lemma sort_stable {A} (cmp : A -> A -> Z) (key : A -> Z) (n : Z) l :
  (forall a b, cmp a b <= 0 <-> key b <= key a) ->
  filter (fun y => key y = n) (sort cmp l) = filter (fun y => key y = n) l.
Proof.
  intros Hcmp. induction l as [|x l IH]; simpl; [done|]. fold (sort cmp l).
  rewrite (sort_insert_stable cmp key n x _ Hcmp), !filter_cons, IH. done.
Qed.

Lemma DomainPickerSortFunc_key (a b : Entry) :
  DomainPickerSortFunc a b <= 0 <-> count_or_0 b <= count_or_0 a.
Proof. unfold DomainPickerSortFunc, count_or_0. lia. Qed.

Lemma DomainPickerSortFunc_consistent : consistent_comparator DomainPickerSortFunc.
Proof. split; intros *; unfold DomainPickerSortFunc; lia. Qed.

Section SortFunc.
Context `{Host}.

(** X11. With [DomainPickerSortFunc] configured, [setCommands] leaves
    the entries it is given in descending order of their tab count (an
    entry without a count counting as 0), none lost and none added, and
    entries with the same count in the order they came in. *)
Theorem domain_pickers_sorted_by_count (l : list Entry) (p : Palette) :
  initialSortFunc (options p) = Some DomainPickerSortFunc ->
  let c := commands (setCommands (VArray l) p) in
  c ≡ₚ l
  ∧ StronglySorted (fun a b => count_or_0 b <= count_or_0 a) c
  ∧ forall n, filter (fun e => count_or_0 e = n) c
              = filter (fun e => count_or_0 e = n) l.
Proof.
  intros Hf c. subst c. rewrite commands_setCommands. unfold initially_sorted.
  rewrite Hf. split_and!.
  - apply sort_perm.
  - apply sort_by_key; intros a b Hab.
    + by apply DomainPickerSortFunc_key.
    + unfold DomainPickerSortFunc, count_or_0 in *. lia.
  - intros n. apply sort_stable. apply DomainPickerSortFunc_key.
Qed.

Lemma setCommands_ordered v p :
  sort_func_consistent p -> commands_ordered (setCommands v p).
Proof.
  intros Hc. unfold commands_ordered. rewrite options_setCommands.
  destruct (initialSortFunc (options p)) as [f|] eqn:Ef; [|done].
  destruct (Hc f Ef) as [Htot Htr].
  unfold setCommands. rewrite Ef. simpl. by apply sort_sorted.
Qed.

Lemma StronglySorted_delete {A} (R : A -> A -> Prop) (l : list A) (i : nat) :
  StronglySorted R l -> StronglySorted R (delete i l).
Proof.
  intros Hs. revert i. induction Hs as [|x l Hl IH Hx]; intros i.
  - destruct i; constructor.
  - destruct i as [|i]; [exact Hl|]. simpl.
    constructor; [apply IH|].
    rewrite Forall_forall in Hx |- *. intros y Hy. apply Hx.
    eapply elem_of_sublist; [exact Hy | apply sublist_delete].
Qed.

(** X12. With a sort function that is consistent, [commands] is in its
    order after every [setCommands], [add] and [remove]; on commands in
    that order [remove] deletes the entry and moves no other, and handing
    [setCommands] the commands the palette holds changes nothing. *)
Theorem commands_stay_ordered (p : Palette) :
  sort_func_consistent p ->
  (forall v, commands_ordered (setCommands v p))
  ∧ (forall cmd, commands_ordered (add cmd p))
  ∧ (commands_ordered p ->
     forall identifier,
       commands_ordered (remove identifier p)
       ∧ (remove identifier p = p
          ∨ exists i, (i < length (commands p))%nat
                      ∧ commands (remove identifier p) = delete i (commands p)))
  ∧ (commands_ordered p ->
     commands (setCommands (VArray (commands p)) p) = commands p
     ∧ setCommands (VArray (commands p)) p = _onQueryChange p).
Proof.
  intros Hc.
  assert (Hkeep : commands_ordered p -> forall l,
    (match initialSortFunc (options p) with
     | Some f => StronglySorted (fun a b => f a b <= 0) l
     | None => True
     end) -> initially_sorted (options p) l = l).
  { intros _ l Hl. unfold initially_sorted.
    destruct (initialSortFunc (options p)) as [f|] eqn:Ef; [|done].
    destruct (Hc f Ef) as [Htot Htr]. by apply sort_sorted_id. }
  split_and!.
  - intros v. by apply setCommands_ordered.
  - intros cmd. by apply setCommands_ordered.
  - intros Ho identifier. unfold remove.
    assert (Hdel : forall i, (i < length (commands p))%nat ->
      commands_ordered (setCommands (VArray (delete i (commands p))) p)
      ∧ (setCommands (VArray (delete i (commands p))) p = p
         ∨ exists j, (j < length (commands p))%nat
              ∧ commands (setCommands (VArray (delete i (commands p))) p)
                = delete j (commands p))).
    { intros i Hi. split; [by apply setCommands_ordered|]. right. exists i.
      split; [done|]. rewrite commands_setCommands. apply (Hkeep Ho).
      unfold commands_ordered in Ho.
      destruct (initialSortFunc (options p)); [|done]. by apply StronglySorted_delete. }
    destruct identifier as [idx|s|e].
    + destruct (Z.ltb_spec idx 0); [by split; [|left]|].
      destruct (Z.leb_spec (Z.of_nat (length (commands p))) idx); [by split; [|left]|].
      simpl. apply Hdel. lia.
    + destruct (negb (truthy_id (Some s))); [by split; [|left]|].
      unfold findIndex.
      destruct (list_find _ (commands p)) as [[i e]|] eqn:E; [|by split; [|left]].
      destruct (Z.eqb_spec (Z.of_nat i) (-1)); [lia|]. rewrite Nat2Z.id.
      apply Hdel. apply list_find_Some in E as [E _]. by apply lookup_lt_Some in E.
    + destruct (negb (truthy_id _)); [by split; [|left]|].
      unfold findIndex.
      destruct (list_find _ (commands p)) as [[i e']|] eqn:E; [|by split; [|left]].
      destruct (Z.eqb_spec (Z.of_nat i) (-1)); [lia|]. rewrite Nat2Z.id.
      apply Hdel. apply list_find_Some in E as [E _]. by apply lookup_lt_Some in E.
  - intros Ho.
    assert (Hs : initially_sorted (options p) (commands p) = commands p)
      by (by apply (Hkeep Ho)).
    split; [by rewrite commands_setCommands|].
    unfold initially_sorted in Hs. unfold setCommands.
    destruct (initialSortFunc (options p)); [|by destruct p].
    rewrite Hs. by destruct p.
Qed.

End SortFunc.

Lemma domain_pickers_sorted_by_count_witness :
  let l := [domain_entry "a" "a.example" 3; domain_entry "b" "b.example" 5;
            domain_entry "c" "c.example" 3] in
  let p := new_Palette domain_picker_options in
  initialSortFunc (options p) = Some DomainPickerSortFunc
  ∧ commands (setCommands (H := ascii_host) (VArray l) p)
    = [domain_entry "b" "b.example" 5; domain_entry "a" "a.example" 3;
       domain_entry "c" "c.example" 3]
  ∧ StronglySorted (fun a b => count_or_0 b <= count_or_0 a)
      (commands (setCommands (H := ascii_host) (VArray l) p)).
Proof.
  intros l p.
  assert (Hf : initialSortFunc (options p) = Some DomainPickerSortFunc) by reflexivity.
  split; [exact Hf|]. split; [reflexivity|].
  exact (proj1 (proj2 (domain_pickers_sorted_by_count (H := ascii_host) l p Hf))).
Defined.

Lemma commands_stay_ordered_witness :
  let p := setCommands (H := ascii_host)
             (VArray [domain_entry "a" "a.example" 3; domain_entry "b" "b.example" 5])
             (new_Palette domain_picker_options) in
  sort_func_consistent p
  ∧ commands_ordered (add (H := ascii_host) (domain_entry "c" "c.example" 4) p).
Proof.
  intros p.
  assert (Hc : sort_func_consistent p).
  { intros f Hf. injection Hf as <-. apply DomainPickerSortFunc_consistent. }
  split; [exact Hc|].
  exact (proj1 (proj2 (commands_stay_ordered (H := ascii_host) p Hc))
           (domain_entry "c" "c.example" 4)).
Defined.

(** ** More about escaping *)

Lemma escape_char_length (c : Z) :
  (1 <= length (escape_char c))%nat
  ∧ (length (escape_char c) = 1%nat <-> ¬ html_special c)
  ∧ (¬ html_special c -> escape_char c = [c]).
Proof.
  destruct (escape_char_cases c) as [[-> ->]|[[-> ->]|[[-> ->]|[[-> ->]|[[-> ->]|[Hc ->]]]]]];
    try (split_and!; [simpl; lia | | intros Hn; destruct Hn; unfold html_special;
                      rewrite !elem_of_cons; tauto];
         split; [simpl; lia |
                 intros Hn; destruct Hn; unfold html_special; rewrite !elem_of_cons; tauto]).
  split_and!; [simpl; lia | done | done].
Qed.

Lemma escapeHtml_length (s : jsstring) : (length s <= length (_escapeHtml s))%nat.
Proof.
  induction s as [|c s IH]; simpl; [done|]. rewrite length_app.
  destruct (escape_char_length c) as [Hc _]. lia.
Qed.

(** X13. [_escapeHtml] changes a text exactly when the text holds an
    ampersand, an angle bracket or a quote, double or single: it is the
    identity on every other text; it never makes a text shorter, it maps
    different texts to different results, and it escapes a concatenation
    piece by piece. *)
Theorem escapeHtml_identity_and_injective (a b : jsstring) :
  (_escapeHtml a = a <-> Forall (fun c => ¬ html_special c) a)
  ∧ (length a <= length (_escapeHtml a))%nat
  ∧ (_escapeHtml a = _escapeHtml b -> a = b)
  ∧ _escapeHtml (a ++ b) = _escapeHtml a ++ _escapeHtml b.
Proof.
  split_and!.
  - split.
    + intros Heq. apply (f_equal length) in Heq. revert Heq.
      induction a as [|c a IH]; simpl; [constructor|]. rewrite length_app.
      intros Hlen. pose proof (escapeHtml_length a).
      destruct (escape_char_length c) as (Hge & Hone & _).
      constructor; [apply Hone; lia | apply IH; lia].
    + induction 1 as [|c a Hc Ha IH]; simpl; [done|].
      destruct (escape_char_length c) as (_ & _ & Hid). rewrite (Hid Hc), IH. done.
  - apply escapeHtml_length.
  - intros Heq. rewrite <- (unescape_escapeHtml a), <- (unescape_escapeHtml b).
    by rewrite Heq.
  - apply escapeHtml_app.
Qed.

Lemma escapeHtml_identity_and_injective_witness :
  Forall (fun c => ¬ html_special c) (js "Open Tab")
  ∧ _escapeHtml (js "Open Tab") = js "Open Tab".
Proof.
  assert (Hsafe : Forall (fun c => ¬ html_special c) (js "Open Tab")).
  { unfold html_special. repeat constructor;
      rewrite !elem_of_cons, elem_of_nil; intros Hc;
      repeat destruct Hc as [Hc | Hc]; try discriminate; done. }
  split; [exact Hsafe|].
  exact (proj2 (proj1 (escapeHtml_identity_and_injective (js "Open Tab") [])) Hsafe).
Defined.

(** ** The keyboard *)

Lemma hide_frame p :
  commands (hide p) = commands p ∧ filtered (hide p) = filtered p
  ∧ selectedIndex (hide p) = selectedIndex p ∧ input_value (hide p) = input_value p
  ∧ dialog_open (hide p) = false.
Proof. unfold hide. destruct (dialog_open p) eqn:E; simpl; by rewrite ?E. Qed.

Lemma moveSelection_frame delta p :
  commands (_moveSelection delta p) = commands p
  ∧ filtered (_moveSelection delta p) = filtered p
  ∧ input_value (_moveSelection delta p) = input_value p
  ∧ dialog_open (_moveSelection delta p) = dialog_open p
  ∧ trace (_moveSelection delta p) = trace p.
Proof. unfold _moveSelection. by case_bool_decide. Qed.

(** X14. While the dialog is closed [_onKeyDown] does nothing, whatever
    the key.  While it is open, Escape closes it; the keys that move the
    selection (the arrows, Tab, Ctrl+p, Ctrl+n) and Escape change neither
    the commands, nor the filtered list, nor the query, and leave a
    selection that was in range in range; and a plain [p] or [n], like any
    key the handler does not know, is left to the input: nothing changes
    and the default action is not prevented. *)
Theorem keys_navigate_only (e : KeyboardEvent) (input_focused : bool) (p : Palette) :
  (dialog_open p = false -> _onKeyDown e input_focused p = (p, false))
  ∧ (key e ≠ KeyEnter ->
     let p' := (_onKeyDown e input_focused p).1 in
     commands p' = commands p ∧ filtered p' = filtered p
     ∧ input_value p' = input_value p
     ∧ (selection_in_range p -> selection_in_range p'))
  ∧ (dialog_open p = true -> key e = KeyEscape ->
     dialog_open (_onKeyDown e input_focused p).1 = false)
  ∧ (ctrlKey e = false -> key e = KeyP ∨ key e = KeyN ∨ key e = KeyOther ->
     _onKeyDown e input_focused p = (p, false)).
Proof.
  split_and!.
  - intros Hc. unfold _onKeyDown. by rewrite Hc.
  - intros Hk p'. subst p'. unfold _onKeyDown.
    destruct (moveSelection_frame 1 p) as (Hc1 & Hf1 & Hi1 & _).
    destruct (moveSelection_frame (-1) p) as (Hc2 & Hf2 & Hi2 & _).
    destruct (hide_frame p) as (Hc3 & Hf3 & Hs3 & Hi3 & _).
    assert (Hhide : selection_in_range p -> selection_in_range (hide p)).
    { unfold selection_in_range. by rewrite Hf3, Hs3. }
    destruct (negb (dialog_open p)); [done|].
    destruct (key e); try done; simpl;
      repeat (match goal with |- context [if ?b then _ else _] => destruct b end);
      simpl; split_and?; try done; try apply moveSelection_in_range.
  - intros Ho Hk. unfold _onKeyDown. rewrite Ho, Hk. simpl. apply hide_frame.
  - intros Hctrl Hk. unfold _onKeyDown. rewrite Hctrl.
    destruct (negb (dialog_open p)); [done|].
    by destruct Hk as [-> | [-> | ->]].
Qed.

Lemma keys_navigate_only_witness :
  let p := palette_with default_options
             [titled "Open Tab"; titled "Close Tab"] 0 in
  let e := {| key := KeyArrowDown; ctrlKey := false; shiftKey := false |} in
  key e ≠ KeyEnter
  ∧ commands (_onKeyDown e true p).1 = commands p
  ∧ selectedIndex (_onKeyDown e true p).1 = 1.
Proof.
  intros p e.
  assert (Hk : key e ≠ KeyEnter) by discriminate.
  split; [exact Hk|]. split; [|reflexivity].
  exact (proj1 (proj1 (proj2 (keys_navigate_only e true p)) Hk)).
Defined.

(** ** The rows follow the state *)

Section Rows.
Context `{Host}.

Lemma remove_target_spec identifier p :
  remove identifier p
  = match remove_target identifier p with
    | Some i => setCommands (VArray (delete i (commands p))) p
    | None => p
    end.
Proof.
  unfold remove, remove_target. destruct identifier as [idx|s|e];
    repeat (match goal with |- context [if ?b then _ else _] => destruct b end);
    reflexivity.
Qed.

Lemma lookup_renderResults query p idx :
  _renderResults query p !! idx
  = (fun cmd => _createResultItem p cmd idx query) <$> filtered p !! idx.
Proof.
  unfold _renderResults. case_bool_decide as He.
  - destruct (filtered p); [done | discriminate].
  - apply list_lookup_imap.
Qed.

Lemma mark_selected_rendered query p sel :
  mark_selected sel (_renderResults query p)
  = _renderResults query (set_selectedIndex sel p).
Proof.
  apply list_eq. intros idx. unfold mark_selected.
  rewrite list_lookup_imap, !lookup_renderResults. cbn [filtered set_selectedIndex].
  by destruct (filtered p !! idx).
Qed.

Lemma exec_view_palette o v : palette (exec_view o v) = exec o (palette v).
Proof.
  destruct o as [value|i|delta|cmd|identifier|l]; unfold exec_view, exec;
    try reflexivity.
  - unfold _moveSelection. by case_bool_decide.
  - destruct (remove_target identifier (palette v)) eqn:E; [reflexivity|].
    by rewrite remove_target_spec, E.
Qed.

Lemma exec_view_up_to_date o v : up_to_date v -> up_to_date (exec_view o v).
Proof.
  intros Hv. unfold up_to_date in *.
  assert (Hsel : forall i, up_to_date
    {| palette := _setSelectedIndex i (palette v);
       rows := mark_selected (selectedIndex (_setSelectedIndex i (palette v))) (rows v) |}).
  { intros i. unfold up_to_date. cbn [palette rows]. rewrite Hv.
    by rewrite mark_selected_rendered. }
  destruct o as [value|i|delta|cmd|identifier|l]; unfold exec_view;
    try reflexivity.
  - apply Hsel.
  - case_bool_decide as He; [exact Hv|].
    unfold _moveSelection. rewrite bool_decide_eq_false_2 by done. apply Hsel.
  - destruct (remove_target identifier (palette v)); [reflexivity | exact Hv].
Qed.

(** X15. The rows on screen always are the rows a fresh render of the
    state would give: after every sequence of query changes, selection
    moves, [add], [remove] and [setCommands], moving the mark in
    [_setSelectedIndex] and rebuilding the rows in [_renderResults] agree.
    There is one row per filtered entry, the row marked [cp-selected] is
    the one at [selectedIndex], and when there are rows there is such a
    row. *)
Theorem rows_follow_state (opts : Options) (ops : list Op) :
  let v := exec_view_all ops (new_View opts) in
  palette v = exec_all ops (new_Palette opts)
  ∧ rows v = _renderResults (trim (input_value (palette v))) (palette v)
  ∧ length (rows v) = length (filtered (palette v))
  ∧ (forall idx row, rows v !! idx = Some row ->
       (cp_selected row = true <-> Z.of_nat idx = selectedIndex (palette v)))
  ∧ (filtered (palette v) ≠ [] ->
     exists row, rows v !! Z.to_nat (selectedIndex (palette v)) = Some row
                 ∧ cp_selected row = true).
Proof.
  intros v.
  assert (Hgen : forall v0, up_to_date v0 ->
    palette (exec_view_all ops v0) = exec_all ops (palette v0)
    ∧ up_to_date (exec_view_all ops v0)).
  { induction ops as [|o ops' IH]; intros v0 Hv0; simpl; [done|].
    destruct (IH (exec_view o v0) (exec_view_up_to_date o v0 Hv0)) as [Hp Hu].
    by rewrite Hp, exec_view_palette. }
  destruct (Hgen (new_View opts)) as [Hp Hu]; [reflexivity|]. fold v in Hp, Hu.
  unfold up_to_date in Hu.
  assert (Hrange : selection_in_range (palette v)).
  { rewrite Hp. apply exec_all_in_range, new_Palette_in_range. }
  split; [exact Hp|]. split; [exact Hu|]. split_and!.
  - rewrite Hu. unfold _renderResults. case_bool_decide as He; [by rewrite He|].
    apply length_imap.
  - intros idx row. rewrite Hu, lookup_renderResults.
    destruct (filtered (palette v) !! idx); [|done]. simpl.
    intros [= <-]. simpl. apply bool_decide_eq_true.
  - intros Hne. unfold selection_in_range in Hrange.
    rewrite bool_decide_eq_false_2 in Hrange by done.
    destruct (lookup_lt_is_Some_2 (filtered (palette v))
                (Z.to_nat (selectedIndex (palette v)))) as [e He]; [lia|].
    eexists. rewrite Hu, lookup_renderResults, He. simpl. split; [reflexivity|].
    simpl. apply bool_decide_eq_true. lia.
Qed.

(** X16. What a row shows.  The title is [displayTitle] when the entry
    has one, else [title], and it is always escaped: cutting the markers
    out of the row's title HTML gives the escaped text.  The subtitle row
    is there exactly when [displaySubtitle], or without one [subtitle], is
    a non-empty text, which it shows escaped the same way; an empty
    [displaySubtitle] hides the subtitle.  The row's [data-cmd-id] is the
    entry's id when that is non-empty, and the row's index otherwise. *)
Theorem row_shows_escaped_display_text (query : jsstring) (p : Palette)
    (idx : nat) (row : Row) :
  _renderResults query p !! idx = Some row ->
  exists entry,
    filtered p !! idx = Some entry
    ∧ remove_markers (title_html row)
      = _escapeHtml (default (title entry) (displayTitle entry))
    ∧ match sub_html row with
      | Some html =>
          exists text, text ≠ []
            ∧ (displaySubtitle entry = Some text
               ∨ (displaySubtitle entry = None ∧ subtitle entry = Some text))
            ∧ remove_markers html = _escapeHtml text
      | None =>
          displaySubtitle entry = Some []
          ∨ (displaySubtitle entry = None
             ∧ (subtitle entry = None ∨ subtitle entry = Some []))
      end
    ∧ (truthy_id (id entry) = true -> Some (data_cmd_id row) = id entry)
    ∧ (truthy_id (id entry) = false -> data_cmd_id row = decimal idx).
Proof.
  rewrite lookup_renderResults.
  destruct (filtered p !! idx) as [entry|]; [|done]. simpl. intros [= <-].
  exists entry. split; [done|].
  assert (Hesc : forall text, remove_markers (_highlight (options p) text query)
                              = _escapeHtml text).
  { intros text. destruct (highlight_renders (options p) text query) as (pieces & -> & Hc).
    by rewrite remove_markers_render, Hc. }
  split_and!.
  - apply Hesc.
  - simpl. destruct (displaySubtitle entry) as [[|c t]|].
    + by left.
    + exists (c :: t). split; [done|]. split; [by left | apply Hesc].
    + destruct (subtitle entry) as [[|c t]|].
      * right. split; [done | by right].
      * exists (c :: t). split; [done|]. split; [by right | apply Hesc].
      * right. split; [done | by left].
  - simpl. intros Ht. rewrite Ht. destruct (id entry); [done | discriminate].
  - simpl. intros Ht. by rewrite Ht.
Qed.

End Rows.

Lemma row_shows_escaped_display_text_witness :
  let entry := {| id := None; title := js "a.example"; subtitle := None;
                  displayTitle := None; displaySubtitle := Some (js "3 <tabs>");
                  run := None; count := Some 3 |} in
  let p := palette_with default_options [entry] 0 in
  let row := _createResultItem (H := ascii_host) p entry 0 (js "ex") in
  _renderResults (H := ascii_host) (js "ex") p !! 0%nat = Some row
  ∧ exists e, filtered p !! 0%nat = Some e
              ∧ remove_markers (title_html row)
                = _escapeHtml (default (title e) (displayTitle e)).
Proof.
  intros entry p row.
  assert (Hrow : _renderResults (H := ascii_host) (js "ex") p !! 0%nat = Some row)
    by reflexivity.
  split; [exact Hrow|].
  destruct (row_shows_escaped_display_text (H := ascii_host) (js "ex") p 0 row Hrow)
    as (e & He & Ht & _).
  exists e. split; [exact He | exact Ht].
Defined.

Example row_of_anonymous_entry :
  let entry := {| id := None; title := js "a.example"; subtitle := None;
                  displayTitle := None; displaySubtitle := Some (js "3 <tabs>");
                  run := None; count := Some 3 |} in
  _renderResults (H := ascii_host) (js "ex")
    (palette_with default_options [titled "b.example"; entry] 1) !! 1%nat
  = Some {| data_cmd_id := js "1";
            title_html := js "a." ++ span_open ++ js "ex" ++ span_close ++ js "ample";
            sub_html := Some (js "3 &lt;tabs&gt;");
            cp_selected := true |}.
Proof. vm_compute. reflexivity. Qed.

(** ** Display texts and search texts *)

Lemma sort_insert_map {A} (cmp : A -> A -> Z) (G : A -> A) x l :
  (forall a b, cmp (G a) (G b) = cmp a b) ->
  sort_insert cmp (G x) (map G l) = map G (sort_insert cmp x l).
Proof.
  intros HG. induction l as [|y l IH]; simpl; [done|].
  rewrite HG. destruct (cmp x y <=? 0); simpl; [done|]. by rewrite IH.
Qed.

Lemma sort_map {A} (cmp : A -> A -> Z) (G : A -> A) l :
  (forall a b, cmp (G a) (G b) = cmp a b) ->
  sort cmp (map G l) = map G (sort cmp l).
Proof.
  intros HG. induction l as [|x l IH]; simpl; [done|].
  fold (sort cmp (map G l)) (sort cmp l). by rewrite IH, sort_insert_map.
Qed.

Lemma filter_map_commute {A} (P : A -> bool) (G : A -> A) l :
  (forall a, P (G a) = P a) ->
  List.filter P (map G l) = map G (List.filter P l).
Proof.
  intros HP. induction l as [|x l IH]; simpl; [done|].
  rewrite HP. destruct (P x); simpl; by rewrite IH.
Qed.

Section Display.
Context `{Host}.

Lemma score_same_search_texts g opts query e :
  same_search_texts g -> score opts query (g e) = score opts query e.
Proof. intros Hg. destruct (Hg e) as [Ht Hs]. unfold score. by rewrite Ht, Hs. Qed.

Lemma filterCommands_map g q p :
  same_search_texts g ->
  _filterCommands q (set_commands (map g (commands p)) p)
  = map g (_filterCommands q p).
Proof.
  intros Hg. unfold _filterCommands. cbn [commands options set_commands].
  destruct (str_eqb q []); [done|].
  set (G := fun x : Entry * Z => (g x.1, x.2)).
  assert (Hmap : map (fun cmd => (cmd, score (options p) (toLowerCase q) cmd))
                   (map g (commands p))
                 = map G (map (fun cmd => (cmd, score (options p) (toLowerCase q) cmd))
                            (commands p))).
  { rewrite !map_map. apply map_ext. intros e. unfold G. simpl.
    by rewrite score_same_search_texts. }
  rewrite Hmap, (filter_map_commute _ G) by done.
  rewrite (sort_map compare_scored G).
  - rewrite !map_map. apply map_ext. by intros [e s].
  - intros [a sa] [b sb]. unfold compare_scored, G. simpl.
    destruct (Hg a) as [-> _]. destruct (Hg b) as [-> _]. done.
Qed.

(** X17. Search never looks at display texts: changing the entries in a
    way that keeps every [title] and [subtitle] (giving them other
    [displayTitle]s or [displaySubtitle]s, say) changes neither which
    entries a query keeps, nor their order, nor the selection. *)
Theorem display_texts_do_not_affect_search (g : Entry -> Entry) (p : Palette) :
  same_search_texts g ->
  filtered (_onQueryChange (set_commands (map g (commands p)) p))
  = map g (filtered (_onQueryChange p))
  ∧ selectedIndex (_onQueryChange (set_commands (map g (commands p)) p))
    = selectedIndex (_onQueryChange p).
Proof.
  intros Hg.
  assert (Hr : query_results (set_commands (map g (commands p)) p)
               = map g (query_results p)).
  { unfold query_results. cbn [options input_value set_commands commands].
    destruct (_ <=? _); [by apply filterCommands_map | done]. }
  rewrite !onQueryChange_eq. cbn [filtered selectedIndex set_selectedIndex set_filtered].
  rewrite Hr. split; [done|]. by rewrite length_map.
Qed.

End Display.

Lemma display_texts_do_not_affect_search_witness :
  let g e := {| id := id e; title := title e; subtitle := subtitle e;
                displayTitle := Some (js "tab"); displaySubtitle := displaySubtitle e;
                run := run e; count := count e |} in
  let p := set_input_value (js "tab")
             (palette_with default_options
                [titled "Open Tab"; titled "New Window"; titled "Close Tab"] 0) in
  same_search_texts g
  ∧ filtered (_onQueryChange (H := ascii_host) (set_commands (map g (commands p)) p))
    = [g (titled "Close Tab"); g (titled "Open Tab")].
Proof.
  intros g p.
  assert (Hg : same_search_texts g) by (intros e; split; reflexivity).
  split; [exact Hg|].
  exact (proj1 (display_texts_do_not_affect_search (H := ascii_host) g p Hg)).
Defined.

(** ** Population replaces the commands *)

Section Replace.
Context `{Host}.

Lemma commands_setCommands_any v p :
  commands (setCommands v p) = initially_sorted (options p) (entries_of v).
Proof.
  unfold setCommands, initially_sorted, entries_of.
  destruct (initialSortFunc (options p)); reflexivity.
Qed.

Lemma populate_constant populateFunc v p :
  (forall q, populateFunc q = Resolved v) ->
  populate populateFunc p = Normal (setCommands v p).
Proof. intros Hv. unfold populate. by rewrite Hv. Qed.

(** X18. A population replaces the commands, it does not add to them:
    when [show] polls an entry source that answers [v], or [init] does
    with [OnInit] configured, the commands afterwards are the entries of
    [v] (in the order of [initialSortFunc], if one is configured) whatever
    the commands were before; an answer that is not an array leaves no
    command at all. *)
Theorem population_replaces_commands
    (populateFunc : Palette -> PopulateResult) (v : JSValue)
    (doc_has_body : bool) (currentHostname prefill : jsstring) (p : Palette) :
  (forall q, populateFunc q = Resolved v) ->
  (show_populates doc_has_body currentHostname p ->
   commands (state_of (show populateFunc doc_has_body currentHostname prefill p))
   = initially_sorted (options p) (entries_of v))
  ∧ (OnInit ∈ populateBehavior (options p) ->
     commands (state_of (init populateFunc p))
     = initially_sorted (options p) (entries_of v))
  ∧ (not_array v -> entries_of v = []).
Proof.
  intros Hv. split_and!.
  - intros (Hbody & Hallow & Hpol).
    rewrite (show_admitted_eq populateFunc doc_has_body currentHostname prefill p)
      by (by split).
    assert (Hone : forall q, options q = options p ->
      commands (setCommands v q) = initially_sorted (options p) (entries_of v))
      by (intros q <-; apply commands_setCommands_any).
    destruct (ranOnce p) eqn:Er; cbn [negb].
    + destruct Hpol as [[? _] | Hs]; [done|].
      cbn [andThen]. unfold has_behavior. rewrite bool_decide_eq_true_2 by done.
      rewrite (populate_constant _ v) by done. cbn [andThen state_of].
      rewrite commands_onQueryChange. cbn [commands set_input_value emit set_dialog_open].
      by apply Hone.
    + rewrite has_behavior_set_ranOnce.
      destruct (has_behavior OnFirstShow p) eqn:Ef.
      * rewrite (populate_constant _ v) by done. cbn [andThen].
        destruct (has_behavior OnShow (setCommands v (set_ranOnce true p))) eqn:Es.
        -- rewrite (populate_constant _ v) by done. cbn [andThen state_of].
           rewrite commands_onQueryChange.
           cbn [commands set_input_value emit set_dialog_open].
           apply Hone. by rewrite options_setCommands.
        -- cbn [andThen state_of]. rewrite commands_onQueryChange.
           cbn [commands set_input_value emit set_dialog_open]. by apply Hone.
      * cbn [andThen]. destruct Hpol as [[_ Hfirst] | Hs].
        -- unfold has_behavior in Ef. by rewrite bool_decide_eq_true_2 in Ef.
        -- unfold has_behavior at 1. cbn [options set_ranOnce].
           rewrite bool_decide_eq_true_2 by done.
           rewrite (populate_constant _ v) by done. cbn [andThen state_of].
           rewrite commands_onQueryChange.
           cbn [commands set_input_value emit set_dialog_open]. by apply Hone.
  - intros Hinit. unfold init, has_behavior. rewrite bool_decide_eq_true_2 by done.
    rewrite (populate_constant _ v) by done. apply commands_setCommands_any.
  - by destruct v.
Qed.

End Replace.

Lemma population_replaces_commands_witness :
  let p := palette_with domain_picker_options [domain_entry "old" "old.example" 9] 0 in
  let l := [domain_entry "a" "a.example" 3; domain_entry "b" "b.example" 5] in
  (forall q, constant_source l q = Resolved (VArray l))
  ∧ show_populates true [] p
  ∧ commands (state_of (show (H := ascii_host) (constant_source l) true [] [] p))
    = [domain_entry "b" "b.example" 5; domain_entry "a" "a.example" 3].
Proof.
  intros p l.
  assert (Hv : forall q, constant_source l q = Resolved (VArray l)) by reflexivity.
  assert (Hpop : show_populates true [] p).
  { split; [reflexivity|]. split; [discriminate|]. right. apply list_elem_of_here. }
  split; [exact Hv|]. split; [exact Hpop|].
  exact (proj1 (population_replaces_commands (H := ascii_host) (constant_source l)
           (VArray l) true [] [] p Hv) Hpop).
Defined.

(** ** A poll of the entry source that fails *)

Section Failure.
Context `{Host}.

Lemma set_ranOnce_same p : ranOnce p = true -> set_ranOnce true p = p.
Proof. intros Hr. destruct p; simpl in *; by subst. Qed.

Lemma setCommands_keeps_surface v p :
  trace (setCommands v p) = trace p
  ∧ dialog_open (setCommands v p) = dialog_open p
  ∧ ranOnce (setCommands v p) = ranOnce p.
Proof.
  destruct (setCommands_surroundings v p) as [(_ & Ht & Hd & _) Hr]. done.
Qed.

(** C8, amended. A poll of the entry source that rejects or throws is
    neither caught nor logged, and [setCommands] is not reached: the
    palette stays in the state in which the source was asked, and the
    rejection leaves with that state.  [show] asks the source at most
    twice.  When the poll of a first [show] (OnFirstShow) fails, or the
    poll of every [show] (OnShow) fails with no poll before it, the state
    is the one before [show] with [ranOnce] set: the commands are the
    previous ones.  When, on a first [show] with both triggers, the first
    poll resolves to [v] and the second one fails, the commands are the
    ones the first poll has stored.  In every case [show] rejects with
    the error of the source, before the dialog is opened, with the trace
    as it was and [ranOnce] set; and [show] rejects in no other way.  In
    [init] the rejection is that of the detached population, and the
    palette is untouched. *)
Theorem population_failure_keeps_commands
    (populateFunc : Palette -> PopulateResult)
    (doc_has_body : bool) (currentHostname prefill : jsstring) (p : Palette) :
  let p1 := set_ranOnce true p in
  let shown := show populateFunc doc_has_body currentHostname prefill p in
  let behaviors := populateBehavior (options p) in
  (forall q err, populateFunc q = Rejected err ->
     populate populateFunc q = Abrupt q err)
  ∧ (forall err, OnInit ∈ behaviors -> populateFunc p = Rejected err ->
     init populateFunc p = Abrupt p err)
  ∧ (forall err, show_admitted doc_has_body currentHostname p ->
     ranOnce p = false -> OnFirstShow ∈ behaviors ->
     populateFunc p1 = Rejected err ->
     shown = Abrupt p1 err)
  ∧ (forall err, show_admitted doc_has_body currentHostname p ->
     ranOnce p = true ∨ OnFirstShow ∉ behaviors -> OnShow ∈ behaviors ->
     populateFunc p1 = Rejected err ->
     shown = Abrupt p1 err)
  ∧ (forall v err, show_admitted doc_has_body currentHostname p ->
     ranOnce p = false -> OnFirstShow ∈ behaviors -> OnShow ∈ behaviors ->
     populateFunc p1 = Resolved v ->
     populateFunc (setCommands v p1) = Rejected err ->
     shown = Abrupt (setCommands v p1) err)
  ∧ (forall q err, shown = Abrupt q err ->
     populateFunc q = Rejected err
     ∧ trace q = trace p ∧ dialog_open q = dialog_open p ∧ ranOnce q = true
     ∧ ((q = p1 ∧ commands q = commands p)
        ∨ (exists v, ranOnce p = false
             ∧ OnFirstShow ∈ behaviors ∧ OnShow ∈ behaviors
             ∧ populateFunc p1 = Resolved v ∧ q = setCommands v p1)))
  ∧ (forall q err, init populateFunc p = Abrupt q err ->
     q = p ∧ populateFunc p = Rejected err ∧ OnInit ∈ behaviors).
Proof.
  intros p1 shown behaviors. subst shown behaviors. split_and!.
  - intros q err Hq. unfold populate. by rewrite Hq.
  - intros err Hinit Hq. unfold init, has_behavior.
    rewrite bool_decide_eq_true_2 by done. unfold populate. by rewrite Hq.
  - intros err Hadm Er Hf Hq.
    rewrite (show_admitted_eq _ _ _ _ _ Hadm). rewrite Er. cbn [negb].
    rewrite has_behavior_set_ranOnce. unfold has_behavior at 1.
    rewrite bool_decide_eq_true_2 by done.
    unfold populate. fold p1. by rewrite Hq.
  - intros err Hadm Hno Hs Hq.
    rewrite (show_admitted_eq _ _ _ _ _ Hadm).
    destruct (ranOnce p) eqn:Er; cbn [negb].
    + cbn [andThen]. unfold has_behavior. rewrite bool_decide_eq_true_2 by done.
      assert (Hp : p1 = p) by (by apply set_ranOnce_same).
      rewrite Hp in *. unfold populate. by rewrite Hq.
    + destruct Hno as [? | Hno]; [done|].
      rewrite has_behavior_set_ranOnce. unfold has_behavior at 1.
      rewrite bool_decide_eq_false_2 by done. cbn [andThen].
      rewrite has_behavior_set_ranOnce. unfold has_behavior.
      rewrite bool_decide_eq_true_2 by done.
      unfold populate. fold p1. by rewrite Hq.
  - intros v err Hadm Er Hf Hs Hv Hq.
    rewrite (show_admitted_eq _ _ _ _ _ Hadm). rewrite Er. cbn [negb].
    rewrite has_behavior_set_ranOnce. unfold has_behavior at 1.
    rewrite bool_decide_eq_true_2 by done.
    unfold populate at 1. fold p1. rewrite Hv. cbn [andThen].
    unfold has_behavior. rewrite options_setCommands.
    rewrite bool_decide_eq_true_2 by done.
    unfold populate. by rewrite Hq.
  - intros q err Hab. unfold show in Hab.
    destruct (negb doc_has_body); [discriminate|].
    destruct (match hostAllowList (options p) with
              | Some l => negb (bool_decide (currentHostname ∈ l))
              | None => false
              end); [discriminate|].
    destruct (ranOnce p) eqn:Er; cbn [negb] in Hab.
    + cbn [andThen] in Hab.
      destruct (has_behavior OnShow p) eqn:Es; [|discriminate].
      unfold populate in Hab.
      destruct (populateFunc p) as [v|e] eqn:Ep; [discriminate|].
      cbn [andThen] in Hab. injection Hab as <- <-.
      split_and!; [done..|]. left. split; [|done].
      symmetry. by apply set_ranOnce_same.
    + cbv zeta in Hab. rewrite has_behavior_set_ranOnce in Hab. fold p1 in Hab.
      destruct (has_behavior OnFirstShow p) eqn:Ef.
      * unfold populate at 1 in Hab.
        destruct (populateFunc p1) as [v|e] eqn:E1.
        -- cbn [andThen] in Hab.
           destruct (has_behavior OnShow (setCommands v p1)) eqn:Es;
             [|discriminate].
           unfold populate in Hab.
           destruct (populateFunc (setCommands v p1)) as [v2|e] eqn:E2;
             [discriminate|].
           cbn [andThen] in Hab. injection Hab as <- <-.
           destruct (setCommands_keeps_surface v p1) as (Ht & Hd & Hr).
           split_and!; [done..|].
           right. exists v. unfold has_behavior in Ef, Es.
           rewrite options_setCommands in Es.
           apply bool_decide_eq_true in Ef, Es. done.
        -- cbn [andThen] in Hab. injection Hab as <- <-.
           split_and!; [done..|]. by left.
      * cbn [andThen] in Hab.
        destruct (has_behavior OnShow p1) eqn:Es; [|discriminate].
        unfold populate in Hab.
        destruct (populateFunc p1) as [v|e] eqn:E1; [discriminate|].
        cbn [andThen] in Hab. injection Hab as <- <-.
        split_and!; [done..|]. by left.
  - intros q err Hab. unfold init in Hab.
    destruct (has_behavior OnInit p) eqn:Ei; [|discriminate].
    unfold populate in Hab.
    destruct (populateFunc p) as [v|e] eqn:Ep; [discriminate|].
    injection Hab as <- <-. unfold has_behavior in Ei.
    apply bool_decide_eq_true in Ei. done.
Qed.

End Failure.

(** A first [show] whose entry source rejects: the rejection is the
    outcome of [show], nothing is logged and the dialog stays closed: C8
    as stated (caught, reported, never propagated) fails. *)
Lemma population_failure_counterexample :
  let err := js "source failed" in
  show (H := ascii_host) (failing_source err) true [] [] unpopulated
  = Abrupt (set_ranOnce true unpopulated) err
  ∧ trace (state_of (show (H := ascii_host) (failing_source err) true [] [] unpopulated)) = []
  ∧ dialog_open (state_of (show (H := ascii_host) (failing_source err) true [] [] unpopulated))
    = false.
Proof. repeat split. Qed.

(** A first [show] with both triggers whose first poll resolves and whose
    second poll rejects: [show] rejects with the commands of the first
    poll in place, the dialog closed and nothing logged. *)
Lemma population_failure_keeps_commands_witness :
  let err := js "source failed" in
  let l := [titled "Open Tab"] in
  let source := failing_when_populated l err in
  let p := new_Palette first_and_every_show_options in
  let p1 := set_ranOnce true p in
  let q := setCommands (H := ascii_host) (VArray l) p1 in
  show_admitted true [] p
  ∧ ranOnce p = false
  ∧ OnFirstShow ∈ populateBehavior (options p)
  ∧ OnShow ∈ populateBehavior (options p)
  ∧ source p1 = Resolved (VArray l)
  ∧ source q = Rejected err
  ∧ show (H := ascii_host) source true [] [] p = Abrupt q err
  ∧ commands q = l ∧ trace q = [] ∧ dialog_open q = false.
Proof.
  intros err l source p p1 q.
  assert (Hadm : show_admitted true [] p) by (split; [done | discriminate]).
  assert (Er : ranOnce p = false) by reflexivity.
  assert (Hf : OnFirstShow ∈ populateBehavior (options p))
    by apply list_elem_of_here.
  assert (Hs : OnShow ∈ populateBehavior (options p))
    by apply list_elem_of_further, list_elem_of_here.
  assert (Hv : source p1 = Resolved (VArray l)) by reflexivity.
  assert (Hq : source q = Rejected err) by reflexivity.
  do 6 (split; [assumption|]).
  split; [|by split_and!].
  exact (proj1 (proj2 (proj2 (proj2 (proj2
           (population_failure_keeps_commands (H := ascii_host)
              source true [] [] p)))))
           (VArray l) err Hadm Er Hf Hs Hv Hq).
Defined.
